(** * python-redis-rate-limit: the distributed lock and the rate-limit guard

    A shallow embedding of [redis_rate_limit/redis_lock.py] (class [Lock])
    and of the [RateLimit] guard exercised by [tests/rate_limit_test.py],
    together with the properties stated about them.

    Modelling decisions, all local to this file:
    - Python numbers that carry time ([time.time()], [expires], [timeout],
      [check_interval]) are rationals [Q]; floating-point rounding is not
      modelled.
    - The Redis server is a finite map from keys to string values, shared
      with other clients.  What the other clients and the wall clock do
      between two operations of this process is an oracle [env], applied
      before every operation; every statement quantifies over it.
    - Python exceptions are the [Raise] results of a small state-and-error
      monad; an unbounded [while] loop takes fuel and answers [Diverge]
      when it runs out. *)

From Stdlib Require Import Ascii QArith Qround Lqa.
From stdpp Require Import gmap strings list pretty.

Set Default Proof Using "Type".

(** ** Numbers *)

Definition Qltb (x y : Q) : bool := negb (Qle_bool y x).

(** What Python's [float(s)] can return: a finite number, an infinity or
    a NaN (for the strings "inf", "-inf", "nan"). *)
Inductive pyfloat : Type :=
| Fin (q : Q)
| PosInf
| NegInf
| NaN.

(** [float(v) < t] for a finite clock reading [t]. *)
Definition flt_ltb (f : pyfloat) (t : Q) : bool :=
  match f with
  | Fin q => Qltb q t
  | NegInf => true
  | PosInf | NaN => false
  end.

(** [float(v) >= t], as a proposition. *)
Definition flt_ge (f : pyfloat) (t : Q) : Prop :=
  match f with
  | Fin q => (t <= q)%Q
  | PosInf => True
  | NegInf | NaN => False
  end.

(** Truth value of a Python string: the empty string is false. *)
Definition truthy (v : string) : bool :=
  match v with
  | EmptyString => false
  | String _ _ => true
  end.

(** ** The Redis commands the lock uses

    Semantics of the store collaborator (SETNX, GET, GETSET, DEL) on the
    key space of one server. *)
Module Redis.

Definition setnx (k v : string) (d : gmap string string)
  : bool * gmap string string :=
  match d !! k with
  | None => (true, <[k:=v]> d)
  | Some _ => (false, d)
  end.

Definition get (k : string) (d : gmap string string)
  : option string * gmap string string :=
  (d !! k, d).

Definition getset (k v : string) (d : gmap string string)
  : option string * gmap string string :=
  (d !! k, <[k:=v]> d).

Definition del (k : string) (d : gmap string string)
  : unit * gmap string string :=
  (tt, delete k d).

End Redis.

(** ** Worlds, events and the monad *)

(** What this process shares with everybody else: the key space and the
    wall clock. *)
Record shared : Type := Shared {
  db : gmap string string;
  wall : Q
}.

(** One entry per operation this process performs, with its answer. *)
Inductive event : Type :=
| ETime (t : Q)
| ESetnx (k v : string) (r : bool)
| EGet (k : string) (r : option string)
| EGetset (k v : string) (old : option string)
| EDelete (k : string)
| ESleep (d : Q).

(** [tick] counts the operations performed so far; [log] lists them, the
    most recent first. *)
Record world : Type := World {
  sh : shared;
  tick : nat;
  log : list event
}.

(** The exceptions that can leave the code of the lock: its own
    [LockTimeout]; the [ValueError] of [float()] on a string that is not
    a number; what [time.sleep] raises on a negative duration, kept apart
    from the conversion error under the name [SleepError]; and whatever
    the body of a [with] statement raises. *)
Inductive exn : Type :=
| LockTimeout
| ValueError
| SleepError
| BodyError (tag : string).

(** The outcome of a computation: a value, an exception, or no outcome
    within the fuel given. *)

Inductive res (A : Type) : Type :=
| Ok (a : A)
| Raise (e : exn)
| Diverge.
Arguments Ok {A} a.
Arguments Raise {A} e.
Arguments Diverge {A}.

Definition M (A : Type) : Type := world → res A * world.

Definition ret {A} (a : A) : M A := λ w, (Ok a, w).
Definition raise {A} (e : exn) : M A := λ w, (Raise e, w).
Definition diverge {A} : M A := λ w, (Diverge, w).

Definition bind {A B} (m : M A) (k : A → M B) : M B :=
  λ w, match m w with
       | (Ok a, w') => k a w'
       | (Raise e, w') => (Raise e, w')
       | (Diverge, w') => (Diverge, w')
       end.

Notation "'let*' x ':=' m 'in' k" := (bind m (λ x, k))
  (at level 10, x name, m at level 100, k at level 200).
Notation "m ';;' k" := (bind m (λ _, k))
  (at level 100, k at level 200, right associativity).

(** Counting in a log. *)
Definition is_setnx (e : event) : bool :=
  match e with ESetnx _ _ _ => true | _ => false end.
Definition is_sleep (e : event) : bool :=
  match e with ESleep _ => true | _ => false end.
Definition is_getset (e : event) : bool :=
  match e with EGetset _ _ _ => true | _ => false end.
Definition is_won_setnx (e : event) : bool :=
  match e with ESetnx _ _ true => true | _ => false end.

Definition is_delete (e : event) : bool :=
  match e with EDelete _ => true | _ => false end.

(** The key a store command names; reading the clock and sleeping name
    none. *)
Definition event_key (e : event) : option string :=
  match e with
  | ESetnx k _ _ | EGet k _ | EGetset k _ _ | EDelete k => Some k
  | ETime _ | ESleep _ => None
  end.

Fixpoint count (p : event → bool) (l : list event) : nat :=
  match l with
  | [] => 0
  | e :: l' => (if p e then 1 else 0) + count p l'
  end.

Fixpoint slept (l : list event) : Q :=
  match l with
  | [] => 0
  | ESleep d :: l' => d + slept l'
  | _ :: l' => slept l'
  end.

(** ** The lock ([redis_lock.py]) *)

Module RedisLock.

Record Lock : Type := MkLock {
  key : string;
  expires : Q;
  timeout : Q;
  check_interval : Q
}.

(** [Lock(connection, key)] with the defaults of [__init__]. *)
Definition default_lock (k : string) : Lock :=
  {| key := k; expires := 60; timeout := 10; check_interval := 1 |}.

(** Both durations are Python ints [t] and [c].  On ints the statement
    [timeout -= self.check_interval] subtracts exactly, which is what the
    budget of [acquire_loop] below does; on floats the program rounds at
    every turn, and how many turns it then takes is not described by this
    model. *)
Definition int_budget (self : Lock) (t c : Z) : Prop :=
  timeout self = inject_Z t ∧ check_interval self = inject_Z c.

Section LockModel.

(** The other clients and the clock: [env n s] is what the shared state
    [s] has become when this process performs its [n]-th operation. *)
Variable env : nat → shared → shared.
(** How the client library writes a number as a Redis value. *)
Variable encode : Q → string.
(** Python's [float()] on a value read back; [None] is [ValueError]. *)
Variable float : string → option pyfloat.

Variable self : Lock.

(** The shared state the next operation of [w] will act on. *)
Definition seen (w : world) : shared := env (tick w) (sh w).

Definition op {A} (f : shared → A * shared) (ev : A → event) : M A :=
  λ w, let '(a, s') := f (seen w) in
       (Ok a, {| sh := s'; tick := S (tick w); log := ev a :: log w |}).

Definition on_db {A} (f : gmap string string → A * gmap string string)
  : shared → A * shared :=
  λ s, let '(a, d) := f (db s) in (a, {| db := d; wall := wall s |}).

Definition time_time : M Q := op (λ s, (wall s, s)) ETime.
Definition setnx (k v : string) : M bool :=
  op (on_db (Redis.setnx k v)) (ESetnx k v).
Definition get (k : string) : M (option string) :=
  op (on_db (Redis.get k)) (EGet k).
Definition getset (k v : string) : M (option string) :=
  op (on_db (Redis.getset k v)) (EGetset k v).
Definition delete_key (k : string) : M unit :=
  op (on_db (Redis.del k)) (λ _, EDelete k).

(** [time.sleep(d)] refuses a negative [d]; otherwise it is recorded and
    the clock is left to [env]. *)
Definition time_sleep (d : Q) : M unit :=
  if Qle_bool 0 d then op (λ s, (tt, s)) (λ _, ESleep d)
  else raise SleepError.

Definition py_float (v : string) : M pyfloat :=
  match float v with
  | Some f => ret f
  | None => raise ValueError
  end.

(** Lines 42-43: [current_value and float(current_value) < time.time()
    and self.r.getset(self.key, expires) == current_value]. *)
Definition takeover (current_value : option string) (expires_at : Q)
  : M bool :=
  match current_value with
  | None => ret false
  | Some v =>
      if truthy v then
        let* f := py_float v in
        let* now := time_time in
        if flt_ltb f now then
          let* old := getset (key self) (encode expires_at) in
          ret (bool_decide (old = Some v))
        else ret false
      else ret false
  end.

(** One turn of the loop body up to the two [return]s (lines 33-44);
    [true] when the lock was gained. *)
Definition attempt : M bool :=
  let* now := time_time in
  let expires_at := (now + expires self + 1)%Q in
  let* won := setnx (key self) (encode expires_at) in
  if won then ret true
  else
    let* current_value := get (key self) in
    takeover current_value expires_at.

(** The [while timeout >= 0] loop of [acquire].  The budget is lowered by
    exact subtraction (see [int_budget]). *)
Fixpoint acquire_loop (fuel : nat) (timeout : Q) : M unit :=
  match fuel with
  | O => diverge
  | S fuel' =>
      if Qle_bool 0 timeout then
        let* gained := attempt in
        if gained then ret tt
        else
          let timeout' := (timeout - check_interval self)%Q in
          time_sleep (check_interval self) ;;
          acquire_loop fuel' timeout'
      else raise LockTimeout
  end.

Definition acquire (fuel : nat) : M unit :=
  acquire_loop fuel (timeout self).

Definition release : M unit := delete_key (key self).

Definition enter (fuel : nat) : M unit := acquire fuel.

(** [__exit__]: release, then [True] without an exception and [False]
    with one. *)
Definition exit (exc_type : option exn) : M bool :=
  release ;;
  match exc_type with
  | None => ret true
  | Some _ => ret false
  end.

(** Python's [with mgr: body] for a manager given by its two methods. *)
Definition with_ (enter_ : M unit) (exit_ : option exn → M bool)
    (body : M unit) : M unit :=
  λ w, match enter_ w with
       | (Ok _, w1) =>
           match body w1 with
           | (Ok _, w2) => (exit_ None ;; ret tt) w2
           | (Raise e, w2) =>
               (let* suppress := exit_ (Some e) in
                if suppress then ret tt else raise e) w2
           | (Diverge, w2) => (Diverge, w2)
           end
       | (Raise e, w1) => (Raise e, w1)
       | (Diverge, w1) => (Diverge, w1)
       end.

Definition with_lock (fuel : nat) (body : M unit) : M unit :=
  with_ (enter fuel) exit body.

(** *** Describing what the other clients do *)

(** [drift k n s]: the shared state after the environment alone has
    acted at the operations [k], [k+1], ..., [k+n-1]. *)
Fixpoint drift (k n : nat) (s : shared) : shared :=
  match n with
  | O => s
  | S n' => drift (S k) n' (env k s)
  end.

(** The state that the [n]-th operation from [w] on acts on, as long as
    this process itself changes nothing. *)
Definition seen_after (w : world) (n : nat) : shared :=
  drift (tick w) (S n) (sh w).

(** The key holds a claim that is unexpired at every check: whatever
    value an operation finds there is a non-empty string that reads as
    a number not below the clock of the operation that follows. *)
Definition held_throughout (w : world) : Prop :=
  ∀ n, ∃ v f,
    db (seen_after w n) !! key self = Some v
    ∧ truthy v = true
    ∧ float v = Some f
    ∧ flt_ge f (wall (seen_after w (S n))).

(** The value under the key, if any, is a timestamp as a lock writes
    it. *)
Definition lock_written (s : shared) : Prop :=
  ∀ v, db s !! key self = Some v → ∃ q, v = encode q.

End LockModel.

End RedisLock.

(** ** The rate-limit guard *)

Module RateLimit.

Inductive rl_exn : Type :=
| GaveUp
| TooManyRequests
| QuotaTimeout.

(** Modelled from the spec: the counter store behind the guard (INCR,
    EXPIRE and reading a counter), which [redis_rate_limit/__init__.py]
    would reach through its connection; that file is not among the
    sources.  A counter is a number with an optional deadline; a key
    whose deadline has passed reads as absent.  [accesses] counts the
    commands sent. *)
Record Store : Type := MkStore {
  counters : gmap (string * string) (Z * option Q);
  clock : Q;
  accesses : nat
}.

Definition live (k : string * string) (s : Store) : option (Z * option Q) :=
  match counters s !! k with
  | Some (n, Some deadline) =>
      if Qltb (clock s) deadline then Some (n, Some deadline) else None
  | Some (n, None) => Some (n, None)
  | None => None
  end.

Definition touch (s : Store) : Store :=
  {| counters := counters s; clock := clock s; accesses := S (accesses s) |}.

Definition put (k : string * string) (v : Z * option Q) (s : Store) : Store :=
  {| counters := <[k:=v]> (counters s); clock := clock s;
     accesses := accesses s |}.

(** The counter as the store would report it, without sending anything. *)
Definition usage_of (k : string * string) (s : Store) : Z :=
  match live k s with
  | Some (n, _) => n
  | None => 0
  end.

Definition read (k : string * string) (s : Store) : Z * Store :=
  (usage_of k s, touch s).

Definition increment (k : string * string) (s : Store) : Z * Store :=
  match live k s with
  | Some (n, deadline) => ((n + 1)%Z, touch (put k ((n + 1)%Z, deadline) s))
  | None => (1%Z, touch (put k (1%Z, None) s))
  end.

Definition expire_in (k : string * string) (seconds : Q) (s : Store) : Store :=
  match live k s with
  | Some (n, _) => touch (put k (n, Some (clock s + seconds)%Q) s)
  | None => touch s
  end.

Definition elapse (d : Q) (s : Store) : Store :=
  {| counters := counters s; clock := (clock s + d)%Q;
     accesses := accesses s |}.

(** Modelled from the spec: the [RateLimit] guard object of
    [redis_rate_limit/__init__.py] (absent from the sources; only its
    test is there), with the fields of the data model.  Callbacks are
    named by numbers and [called] lists the ones that ran. *)
Record Guard : Type := MkGuard {
  resource : string;
  client : string;
  max_requests : Z;
  expire : Q;
  blocking : bool;
  acquire_timeout : Q;
  acquire_check_interval : Q;
  acquire_attempt : nat;
  post_enter_callbacks : gset nat;
  in_context : bool;
  called : list nat
}.

Definition counter_key (g : Guard) : string * string :=
  (resource g, client g).

Definition set_in_context (b : bool) (g : Guard) : Guard :=
  {| resource := resource g; client := client g;
     max_requests := max_requests g; expire := expire g;
     blocking := blocking g; acquire_timeout := acquire_timeout g;
     acquire_check_interval := acquire_check_interval g;
     acquire_attempt := acquire_attempt g;
     post_enter_callbacks := post_enter_callbacks g;
     in_context := b; called := called g |}.

Definition set_acquire_attempt (n : nat) (g : Guard) : Guard :=
  {| resource := resource g; client := client g;
     max_requests := max_requests g; expire := expire g;
     blocking := blocking g; acquire_timeout := acquire_timeout g;
     acquire_check_interval := acquire_check_interval g;
     acquire_attempt := n;
     post_enter_callbacks := post_enter_callbacks g;
     in_context := in_context g; called := called g |}.

Definition add_post_enter_callback (cb : nat) (g : Guard) : Guard :=
  {| resource := resource g; client := client g;
     max_requests := max_requests g; expire := expire g;
     blocking := blocking g; acquire_timeout := acquire_timeout g;
     acquire_check_interval := acquire_check_interval g;
     acquire_attempt := acquire_attempt g;
     post_enter_callbacks := {[cb]} ∪ post_enter_callbacks g;
     in_context := in_context g; called := called g |}.

Definition run_callbacks (g : Guard) : Guard :=
  {| resource := resource g; client := client g;
     max_requests := max_requests g; expire := expire g;
     blocking := blocking g; acquire_timeout := acquire_timeout g;
     acquire_check_interval := acquire_check_interval g;
     acquire_attempt := acquire_attempt g;
     post_enter_callbacks := ∅;
     in_context := in_context g;
     called := called g ++ elements (post_enter_callbacks g) |}.

Inductive outcome : Type :=
| Done
| Failed (e : rl_exn)
| Stuck.

Definition get_usage (g : Guard) (s : Store) : Z * Store :=
  read (counter_key g) s.

Definition has_been_reached (g : Guard) (s : Store) : bool * Store :=
  let '(u, s') := get_usage g s in (bool_decide (max_requests g ≤ u)%Z, s').

(** Modelled from the spec: the successful transition of the state
    machine: increment, arm the window on the first increment, mark the
    instance as inside its scope, reset the retry count, run and clear
    the callbacks. *)
Definition claim (g : Guard) (s : Store) : Guard * Store :=
  let '(n, s1) := increment (counter_key g) s in
  let s2 := if bool_decide (n = 1%Z)
            then expire_in (counter_key g) (expire g) s1 else s1 in
  (run_callbacks (set_acquire_attempt 0 (set_in_context true g)), s2).

(** Modelled from the spec: the Check state and its three exits; the
    blocking retry takes fuel.  Waiting has reached the timeout when
    [acquire_attempt * acquire_check_interval >= acquire_timeout]. *)
Fixpoint check (fuel : nat) (g : Guard) (s : Store)
  : outcome * Guard * Store :=
  match fuel with
  | O => (Stuck, g, s)
  | S fuel' =>
      let '(u, s1) := get_usage g s in
      if bool_decide (u < max_requests g)%Z then
        let '(g', s2) := claim g s1 in (Done, g', s2)
      else if negb (blocking g) then (Failed TooManyRequests, g, s1)
      else if Qle_bool (acquire_timeout g)
                (inject_Z (Z.of_nat (acquire_attempt g))
                 * acquire_check_interval g)
      then (Failed QuotaTimeout, g, s1)
      else
        check fuel'
          (set_acquire_attempt (S (acquire_attempt g)) g)
          (elapse (acquire_check_interval g) s1)
  end.

(** Modelled from the spec: entering the scope (the Start state first)
    and leaving it. *)
Definition enter (fuel : nat) (g : Guard) (s : Store)
  : outcome * Guard * Store :=
  if in_context g then (Failed GaveUp, g, s) else check fuel g s.

Definition leave (g : Guard) : Guard := set_in_context false g.

(** Modelled from the spec: [with guard: body]; the body sees the guard
    and the store and may itself fail; leaving clears [in_context] on
    both ways out of the body. *)
Definition scope (fuel : nat)
    (body : Guard → Store → outcome * Guard * Store)
    (g : Guard) (s : Store) : outcome * Guard * Store :=
  match enter fuel g s with
  | (Done, g1, s1) =>
      let '(r, g2, s2) := body g1 s1 in
      match r with
      | Stuck => (Stuck, g2, s2)
      | _ => (r, leave g2, s2)
      end
  | failed => failed
  end.

(** The body [pass]. *)
Definition pass (g : Guard) (s : Store) : outcome * Guard * Store :=
  (Done, g, s).

(** [n] scoped uses in a row, each after a pause; it stops at the first
    one that fails.  *)
Fixpoint requests (fuel : nat) (pauses : list Q) (g : Guard) (s : Store)
  : outcome * Guard * Store :=
  match pauses with
  | [] => (Done, g, s)
  | d :: pauses' =>
      match scope fuel pass g (elapse d s) with
      | (Done, g', s') => requests fuel pauses' g' s'
      | failed => failed
      end
  end.

(** A guard as its constructor leaves it: outside its scope, no retry
    counted, no callback registered. *)
Definition new (res cl : string) (maxr : Z) (exp : Q) (blk : bool)
    (tmo interval : Q) : Guard :=
  {| resource := res; client := cl; max_requests := maxr; expire := exp;
     blocking := blk; acquire_timeout := tmo;
     acquire_check_interval := interval;
     acquire_attempt := 0; post_enter_callbacks := ∅;
     in_context := false; called := [] |}.

Definition empty_store (t : Q) : Store :=
  {| counters := ∅; clock := t; accesses := 0 |}.

(** Describing a run: the time a list of pauses takes, a window that is
    open with [u] claims counted until [deadline], and two guards that
    differ at most in their mutable fields. *)
Definition total (pauses : list Q) : Q := foldr Qplus 0%Q pauses.

Definition open_window (k : string * string) (u : Z) (deadline : Q)
    (s : Store) : Prop :=
  counters s !! k = Some (u, Some deadline) ∧ (clock s < deadline)%Q.

Definition same_settings (g g' : Guard) : Prop :=
  resource g' = resource g ∧ client g' = client g
  ∧ max_requests g' = max_requests g ∧ expire g' = expire g
  ∧ blocking g' = blocking g.

End RateLimit.

(** ** A concrete setting to run the model in

    Timestamps written as decimal integers, and an environment in which
    nobody else touches the store and the clock stands still. *)
Module Fixture.

Definition idle : nat → shared → shared := λ _ s, s.

Definition encode (q : Q) : string := pretty (Qfloor q).

Definition digit (a : Ascii.ascii) : option Z :=
  let n := Z.of_N (Ascii.N_of_ascii a) in
  if bool_decide (48 ≤ n ≤ 57)%Z then Some (n - 48)%Z else None.

Fixpoint digits (acc : Z) (s : string) : option Z :=
  match s with
  | EmptyString => Some acc
  | String a s' =>
      match digit a with
      | Some d => digits (10 * acc + d) s'
      | None => None
      end
  end.

Definition float (s : string) : option pyfloat :=
  match s with
  | EmptyString => None
  | String a s' =>
      if Ascii.eqb a "-" then
        match s' with
        | EmptyString => None
        | _ => (λ z, Fin (inject_Z (- z))) <$> digits 0 s'
        end
      else (λ z, Fin (inject_Z z)) <$> digits 0 s
  end.

(** [float] extended with the two spellings Python reads as a
    not-a-number and as an infinity. *)
Definition float_py (s : string) : option pyfloat :=
  if bool_decide (s = "nan") then Some NaN
  else if bool_decide (s = "inf") then Some PosInf
  else float s.

(** A server on which ["lock"] is held until [until], read at time 100. *)
Definition held_until (until : string) : world :=
  {| sh := {| db := {["lock" := until]}; wall := 100 |};
     tick := 0; log := [] |}.

(** A server with no key at all, at time 100. *)
Definition free : world :=
  {| sh := {| db := ∅; wall := 100 |}; tick := 0; log := [] |}.

(** Another client that, just before this process performs operation
    number 4 (the [getset] of a first attempt), puts its own claim
    ["9000"] under ["lock"]. *)
Definition racer : nat → shared → shared :=
  λ n s, if Nat.eqb n 4
         then {| db := <["lock":="9000"]> (db s); wall := wall s |}
         else s.

(** Nobody else writes, and the clock stands at 100 whatever the state
    handed in. *)
Definition frozen : nat → shared → shared :=
  λ _ s, {| db := db s; wall := 100 |}.

Definition lock (tmo interval : Q) : RedisLock.Lock :=
  {| RedisLock.key := "lock"; RedisLock.expires := 60;
     RedisLock.timeout := tmo; RedisLock.check_interval := interval |}.

End Fixture.

(** * Properties *)

Lemma Qltb_lt (x y : Q) : Qltb x y = true <-> (x < y)%Q.
Proof.
  unfold Qltb. rewrite negb_true_iff. split.
  - intros H. apply Qnot_le_lt. intros Hle.
    apply Qle_bool_iff in Hle. congruence.
  - intros H. destruct (Qle_bool y x) eqn:E; [|reflexivity].
    apply Qle_bool_iff in E. exfalso. exact (Qlt_not_le _ _ H E).
Qed.

Lemma Qltb_ge (x y : Q) : Qltb x y = false <-> (y <= x)%Q.
Proof.
  unfold Qltb. rewrite negb_false_iff. apply Qle_bool_iff.
Qed.

Lemma flt_ge_not_lt (f : pyfloat) (t : Q) : flt_ge f t → flt_ltb f t = false.
Proof.
  destruct f; simpl; try done. intros H. by apply Qltb_ge.
Qed.


(** ** The concrete setting *)

Section FixtureFacts.

Lemma idle_drift (k n : nat) (s : shared) :
  RedisLock.drift Fixture.idle k n s = s.
Proof. revert k. induction n as [|n IH]; intros k; simpl; [done|apply IH]. Qed.

Lemma digit_pretty_char (x : N) : is_Some (Fixture.digit (pretty_N_char x)).
Proof.
  unfold pretty_N_char. repeat case_match; by eexists.
Qed.

Lemma digits_pretty_go (x : N) :
  ∀ s, (∀ acc, is_Some (Fixture.digits acc s)) →
       ∀ acc, is_Some (Fixture.digits acc (pretty_N_go x s)).
Proof.
  induction (N.lt_wf_0 x) as [x _ IH]. intros s Hs acc.
  destruct (decide (x = 0)%N) as [->|Hx].
  - rewrite pretty_N_go_0. apply Hs.
  - rewrite pretty_N_go_step by lia. apply IH.
    + apply N.div_lt; lia.
    + intros acc'. simpl.
      destruct (digit_pretty_char (x `mod` 10)%N) as [d ->]. apply Hs.
Qed.

Lemma pretty_go_nonempty (x : N) :
  ∀ s, s ≠ EmptyString → pretty_N_go x s ≠ EmptyString.
Proof.
  induction (N.lt_wf_0 x) as [x _ IH]. intros s Hs.
  destruct (decide (x = 0)%N) as [->|Hx].
  - by rewrite pretty_N_go_0.
  - rewrite pretty_N_go_step by lia. apply IH; [apply N.div_lt; lia|done].
Qed.

Lemma pretty_positive_digits (p : positive) :
  pretty p ≠ EmptyString
  ∧ (∀ s', pretty p ≠ String "-" s')
  ∧ ∀ acc, is_Some (Fixture.digits acc (pretty p)).
Proof.
  unfold pretty, pretty_positive, pretty, pretty_N.
  case_decide; [done|]. split; [|split].
  - rewrite pretty_N_go_step by lia. by apply pretty_go_nonempty.
  - intros s'. by apply (pretty_N_go_ne_dash _ _ s').
  - apply digits_pretty_go. intros acc. by eexists.
Qed.

(** Every timestamp written in this setting is read back as a number. *)
Lemma fixture_float_encode (q : Q) :
  Fixture.float (Fixture.encode q) ≠ None.
Proof.
  unfold Fixture.encode, pretty, pretty_Z.
  destruct (Qfloor q) as [|p|p]; [done| |].
  - destruct (pretty_positive_digits p) as (Hne & Hdash & Hdig).
    unfold Fixture.float.
    destruct (pretty p) as [|a s'] eqn:E; [done|].
    destruct (Ascii.eqb a "-") eqn:Ea.
    + apply Ascii.eqb_eq in Ea as ->. by destruct (Hdash s').
    + by destruct (Hdig 0%Z) as [z ->].
  - destruct (pretty_positive_digits p) as (Hne & _ & Hdig).
    simpl. destruct (pretty p) as [|a s'] eqn:E; [done|].
    change ("" +:+ String a s') with (String a s').
    by destruct (Hdig 0%Z) as [z ->].
Qed.

Lemma digit_pretty_char_val (x : N) :
  (x < 10)%N → Fixture.digit (pretty_N_char x) = Some (Z.of_N x).
Proof.
  intros Hx.
  assert (x = 0 ∨ x = 1 ∨ x = 2 ∨ x = 3 ∨ x = 4 ∨ x = 5 ∨ x = 6 ∨ x = 7
          ∨ x = 8 ∨ x = 9)%N as Hcases by lia.
  repeat (destruct Hcases as [->|Hcases]; [done|]). by subst.
Qed.

Lemma digits_pretty_go_val (x : N) :
  ∀ s, Fixture.digits 0 (pretty_N_go x s) = Fixture.digits (Z.of_N x) s.
Proof.
  induction (N.lt_wf_0 x) as [x _ IH]. intros s.
  destruct (decide (x = 0)%N) as [->|Hx].
  - by rewrite pretty_N_go_0.
  - rewrite pretty_N_go_step by lia. rewrite IH by (apply N.div_lt; lia).
    simpl. rewrite digit_pretty_char_val by (apply N.mod_lt; lia).
    f_equal. pose proof (N.div_mod x 10). lia.
Qed.

(** Reading back what was written gives the whole seconds. *)
Lemma fixture_float_encode_val (q : Q) :
  Fixture.float (Fixture.encode q) = Some (Fin (inject_Z (Qfloor q))).
Proof.
  unfold Fixture.encode, pretty, pretty_Z.
  destruct (Qfloor q) as [|p|p]; [done| |].
  - destruct (pretty_positive_digits p) as (Hne & Hdash & _).
    assert (Fixture.digits 0 (pretty p) = Some (Z.pos p)) as Hval.
    { unfold pretty, pretty_positive, pretty, pretty_N.
      case_decide; [done|]. by rewrite digits_pretty_go_val. }
    unfold Fixture.float.
    destruct (pretty p) as [|a s'] eqn:E; [done|].
    destruct (Ascii.eqb a "-") eqn:Ea.
    + apply Ascii.eqb_eq in Ea as ->. by destruct (Hdash s').
    + by rewrite Hval.
  - destruct (pretty_positive_digits p) as (Hne & _ & _).
    assert (Fixture.digits 0 (pretty p) = Some (Z.pos p)) as Hval.
    { unfold pretty, pretty_positive, pretty, pretty_N.
      case_decide; [done|]. by rewrite digits_pretty_go_val. }
    simpl. destruct (pretty p) as [|a s'] eqn:E; [done|].
    change ("" +:+ String a s') with (String a s'). by rewrite Hval.
Qed.

Lemma fixture_encode_truthy (q : Q) : truthy (Fixture.encode q) = true.
Proof.
  pose proof (fixture_float_encode q) as H.
  by destruct (Fixture.encode q).
Qed.

Lemma fixture_codec_close (q : Q) :
  ∃ q', Fixture.float (Fixture.encode q) = Some (Fin q') ∧ (q - 1 <= q')%Q.
Proof.
  exists (inject_Z (Qfloor q)). split; [apply fixture_float_encode_val|].
  pose proof (Qlt_floor q) as H. rewrite inject_Z_plus in H.
  change (inject_Z 1) with 1%Q in H. lra.
Qed.

(** A lock held until 9999 stays held when nobody moves. *)
Lemma fixture_held (tmo interval : Q) (k : nat) (l : list event) :
  RedisLock.held_throughout Fixture.idle Fixture.float
    (Fixture.lock tmo interval)
    {| sh := sh (Fixture.held_until "9999"); tick := k; log := l |}.
Proof.
  intros n. unfold RedisLock.seen_after. rewrite !idle_drift.
  exists "9999", (Fin 9999). by vm_compute.
Qed.

End FixtureFacts.

Import RedisLock.

Section LockProperties.

Variable env : nat → shared → shared.
Variable encode : Q → string.
Variable float : string → option pyfloat.
Variable self : Lock.

Local Abbreviation seen := (RedisLock.seen env).
Local Abbreviation time_time := (RedisLock.time_time env).
Local Abbreviation setnx := (RedisLock.setnx env).
Local Abbreviation get := (RedisLock.get env).
Local Abbreviation getset := (RedisLock.getset env).
Local Abbreviation time_sleep := (RedisLock.time_sleep env).
Local Abbreviation takeover := (RedisLock.takeover env encode float self).
Local Abbreviation attempt := (RedisLock.attempt env encode float self).
Local Abbreviation acquire_loop :=
  (RedisLock.acquire_loop env encode float self).
Local Abbreviation acquire := (RedisLock.acquire env encode float self).
Local Abbreviation release := (RedisLock.release env self).
Local Abbreviation with_lock := (RedisLock.with_lock env encode float self).
Local Abbreviation drift := (RedisLock.drift env).
Local Abbreviation seen_after := (RedisLock.seen_after env).
Local Abbreviation held_throughout :=
  (RedisLock.held_throughout env float self).
Local Abbreviation lock_written := (RedisLock.lock_written encode self).

(** What each operation answers and leaves behind. *)
Lemma time_time_eq (w : world) :
  time_time w
  = (Ok (wall (seen w)),
     {| sh := seen w; tick := S (tick w);
        log := ETime (wall (seen w)) :: log w |}).
Proof. reflexivity. Qed.

Lemma setnx_eq (k v : string) (w : world) :
  setnx k v w
  = match db (seen w) !! k with
    | None =>
        (Ok true,
         {| sh := {| db := <[k:=v]> (db (seen w)); wall := wall (seen w) |};
            tick := S (tick w); log := ESetnx k v true :: log w |})
    | Some _ =>
        (Ok false,
         {| sh := {| db := db (seen w); wall := wall (seen w) |};
            tick := S (tick w); log := ESetnx k v false :: log w |})
    end.
Proof.
  unfold RedisLock.setnx, op, on_db, Redis.setnx.
  by destruct (db (seen w) !! k).
Qed.

Lemma get_eq (k : string) (w : world) :
  get k w
  = (Ok (db (seen w) !! k),
     {| sh := {| db := db (seen w); wall := wall (seen w) |};
        tick := S (tick w); log := EGet k (db (seen w) !! k) :: log w |}).
Proof. reflexivity. Qed.

Lemma getset_eq (k v : string) (w : world) :
  getset k v w
  = (Ok (db (seen w) !! k),
     {| sh := {| db := <[k:=v]> (db (seen w)); wall := wall (seen w) |};
        tick := S (tick w);
        log := EGetset k v (db (seen w) !! k) :: log w |}).
Proof. reflexivity. Qed.

Lemma time_sleep_eq (d : Q) (w : world) :
  (0 <= d)%Q →
  time_sleep d w
  = (Ok tt, {| sh := seen w; tick := S (tick w);
               log := ESleep d :: log w |}).
Proof.
  intros Hd. unfold RedisLock.time_sleep.
  apply Qle_bool_iff in Hd. by rewrite Hd.
Qed.

Lemma release_eq (w : world) :
  release w
  = (Ok tt,
     {| sh := {| db := delete (key self) (db (seen w));
                 wall := wall (seen w) |};
        tick := S (tick w); log := EDelete (key self) :: log w |}).
Proof. reflexivity. Qed.

(** The loop, one turn unfolded. *)
Lemma acquire_loop_turn (fuel : nat) (budget : Q) (w : world) :
  (0 <= budget)%Q →
  acquire_loop (S fuel) budget w
  = match attempt w with
    | (Ok true, w') => (Ok tt, w')
    | (Ok false, w') =>
        (time_sleep (check_interval self) ;;
         acquire_loop fuel (budget - check_interval self)%Q) w'
    | (Raise e, w') => (Raise e, w')
    | (Diverge, w') => (Diverge, w')
    end.
Proof.
  intros Hb. apply Qle_bool_iff in Hb. simpl. rewrite Hb.
  unfold bind at 1. destruct (attempt w) as [[[]|e|] w']; reflexivity.
Qed.

Lemma acquire_loop_spent (fuel : nat) (budget : Q) (w : world) :
  (budget < 0)%Q →
  acquire_loop (S fuel) budget w = (Raise LockTimeout, w).
Proof.
  intros Hb. simpl.
  destruct (Qle_bool 0 budget) eqn:E; [|reflexivity].
  apply Qle_bool_iff in E. exfalso. exact (Qlt_not_le _ _ Hb E).
Qed.

(** C6: an attempt made while the key is absent wins [setnx], so
    [acquire] returns on that very attempt, and the key then holds the
    timestamp [now + expires + 1] computed from the clock read at the
    start of the attempt. *)
Theorem C6_absent_key_is_acquired (w w1 : world) (now : Q) :
  time_time w = (Ok now, w1) →
  db (seen w1) !! key self = None →
  let candidate := encode (now + expires self + 1)%Q in
  ∃ w2,
    setnx (key self) candidate w1 = (Ok true, w2)
    ∧ attempt w = (Ok true, w2)
    ∧ (∀ fuel budget, (0 <= budget)%Q →
         acquire_loop (S fuel) budget w = (Ok tt, w2))
    ∧ db (sh w2) !! key self = Some candidate.
Proof.
  intros Ht Habs candidate.
  pose proof (setnx_eq (key self) candidate w1) as Hs. rewrite Habs in Hs.
  eexists. split; [exact Hs|].
  assert (attempt w = (Ok true,
            {| sh := {| db := <[key self:=candidate]> (db (seen w1));
                        wall := wall (seen w1) |};
               tick := S (tick w1);
               log := ESetnx (key self) candidate true :: log w1 |})) as Ha.
  { unfold RedisLock.attempt, bind. rewrite Ht. fold candidate.
    by rewrite Hs. }
  split; [exact Ha|]. split.
  - intros fuel budget Hb. rewrite acquire_loop_turn by done. by rewrite Ha.
  - simpl. apply lookup_insert_eq.
Qed.

(** C2: when [setnx] fails, the value read is a non-empty string that
    reads as a number strictly below the clock, and [getset] hands back
    exactly that value, the attempt gains the lock: [acquire] returns on
    it, nobody having released, and the key holds the caller's candidate
    expiry. *)
Theorem C2_expired_lock_is_taken_over
    (w w1 w2 w3 w4 w5 : world) (now now' : Q) (v : string) (f : pyfloat) :
  time_time w = (Ok now, w1) →
  let candidate := encode (now + expires self + 1)%Q in
  setnx (key self) candidate w1 = (Ok false, w2) →
  get (key self) w2 = (Ok (Some v), w3) →
  truthy v = true →
  float v = Some f →
  time_time w3 = (Ok now', w4) →
  flt_ltb f now' = true →
  getset (key self) candidate w4 = (Ok (Some v), w5) →
  attempt w = (Ok true, w5)
  ∧ (∀ fuel budget, (0 <= budget)%Q →
       acquire_loop (S fuel) budget w = (Ok tt, w5))
  ∧ db (sh w5) !! key self = Some candidate.
Proof.
  intros Ht candidate Hs Hg Hv Hf Ht' Hlt Hgs.
  assert (attempt w = (Ok true, w5)) as Ha.
  { unfold RedisLock.attempt, bind. rewrite Ht. fold candidate.
    rewrite Hs, Hg. unfold RedisLock.takeover, py_float, bind, ret.
    rewrite Hv, Hf, Ht', Hlt. fold candidate. rewrite Hgs.
    by rewrite bool_decide_eq_true_2. }
  split; [exact Ha|]. split.
  - intros fuel budget Hb. rewrite acquire_loop_turn by done. by rewrite Ha.
  - rewrite getset_eq in Hgs. injection Hgs as _ <-. simpl.
    apply lookup_insert_eq.
Qed.

(** C9: when the value read has expired but [getset] hands back something
    else (somebody got in between), the attempt does not gain the lock and
    the loop goes on to sleep; yet the key, which held the other party's
    value [old], now holds this caller's candidate expiry. *)
Theorem C9_lost_takeover_overwrites_key
    (w w1 w2 w3 w4 w5 : world) (now now' : Q) (v : string) (f : pyfloat)
    (old : option string) :
  time_time w = (Ok now, w1) →
  let candidate := encode (now + expires self + 1)%Q in
  setnx (key self) candidate w1 = (Ok false, w2) →
  get (key self) w2 = (Ok (Some v), w3) →
  truthy v = true →
  float v = Some f →
  time_time w3 = (Ok now', w4) →
  flt_ltb f now' = true →
  getset (key self) candidate w4 = (Ok old, w5) →
  old ≠ Some v →
  attempt w = (Ok false, w5)
  ∧ (∀ fuel budget, (0 <= budget)%Q →
       acquire_loop (S fuel) budget w
       = (time_sleep (check_interval self) ;;
          acquire_loop fuel (budget - check_interval self)%Q) w5)
  ∧ db (seen w4) !! key self = old
  ∧ db (sh w5) !! key self = Some candidate.
Proof.
  intros Ht candidate Hs Hg Hv Hf Ht' Hlt Hgs Hold.
  assert (attempt w = (Ok false, w5)) as Ha.
  { unfold RedisLock.attempt, bind. rewrite Ht. fold candidate.
    rewrite Hs, Hg. unfold RedisLock.takeover, py_float, bind, ret.
    rewrite Hv, Hf, Ht', Hlt. fold candidate. rewrite Hgs.
    by rewrite bool_decide_eq_false_2. }
  split; [exact Ha|]. split.
  - intros fuel budget Hb. rewrite acquire_loop_turn by done. by rewrite Ha.
  - rewrite getset_eq in Hgs. injection Hgs as <- <-. simpl.
    split; [done|]. apply lookup_insert_eq.
Qed.

(** *** Values that do not read as numbers *)

Lemma lock_written_db (s s' : shared) :
  db s' = db s → lock_written s → lock_written s'.
Proof. unfold RedisLock.lock_written. intros ->. done. Qed.

Lemma lock_written_insert (s : shared) (q : Q) (t : Q) :
  lock_written {| db := <[key self:=encode q]> (db s); wall := t |}.
Proof.
  intros v. simpl. rewrite lookup_insert_eq. intros [= <-]. by exists q.
Qed.

Section OnlyLocksWrite.

Hypothesis float_encode : ∀ q, float (encode q) ≠ None.
Hypothesis env_lock_written : ∀ n s, lock_written s → lock_written (env n s).

Lemma attempt_lock_written (w w' : world) (r : res bool) :
  lock_written (sh w) →
  attempt w = (r, w') →
  r ≠ Raise ValueError ∧ lock_written (sh w').
Proof using float_encode env_lock_written.
  intros Hw. unfold RedisLock.attempt, bind. rewrite time_time_eq.
  rewrite setnx_eq. cbn [tick sh log].
  set (w1 := {| sh := seen w |}).
  assert (lock_written (seen w1)) as H1.
  { apply env_lock_written. simpl. by apply env_lock_written. }
  destruct (db (seen w1) !! key self) as [v0|] eqn:E0.
  - rewrite get_eq. cbn [tick sh log].
    set (w2 := {| sh := {| db := db (seen w1) |} |}).
    assert (lock_written (seen w2)) as H2.
    { apply env_lock_written. simpl. by eapply lock_written_db. }
    unfold RedisLock.takeover.
    destruct (db (seen w2) !! key self) as [v|] eqn:E2.
    + destruct (truthy v).
      * destruct (H2 v E2) as [q ->]. unfold py_float, bind.
        destruct (float (encode q)) as [f|] eqn:Ef;
          [|by destruct (float_encode q)].
        unfold ret at 1. rewrite time_time_eq. cbn [tick sh log].
        set (w3 := {| sh := {| db := db (seen w2) |} |}).
        destruct (flt_ltb f (wall (seen w3))).
        -- rewrite getset_eq. unfold ret. intros [= <- <-].
           split; [done|]. apply lock_written_insert.
        -- unfold ret. intros [= <- <-]. split; [done|]. simpl.
           apply env_lock_written. simpl. by eapply lock_written_db.
      * unfold ret. intros [= <- <-]. split; [done|]. simpl.
        by eapply lock_written_db.
    + unfold ret. intros [= <- <-]. split; [done|]. simpl.
      by eapply lock_written_db.
  - unfold ret. intros [= <- <-]. split; [done|]. apply lock_written_insert.
Qed.

Lemma acquire_loop_no_value_error (fuel : nat) (budget : Q) (w : world) :
  lock_written (sh w) →
  (acquire_loop fuel budget w).1 ≠ Raise ValueError.
Proof using float_encode env_lock_written.
  revert budget w. induction fuel as [|fuel IH]; intros budget w Hw.
  - done.
  - destruct (Qlt_le_dec budget 0) as [Hb|Hb].
    + by rewrite acquire_loop_spent.
    + rewrite acquire_loop_turn by done.
      destruct (attempt w) as [r w'] eqn:Ha.
      destruct (attempt_lock_written _ _ _ Hw Ha) as [Hr Hw'].
      destruct r as [[]|e|]; [done| |simpl; congruence|done].
      unfold bind, RedisLock.time_sleep.
      destruct (Qle_bool 0 (check_interval self)); [|done].
      unfold op. cbn [fst snd]. apply IH. simpl.
      by apply env_lock_written.
Qed.

End OnlyLocksWrite.

(** C10: if [setnx] fails and the value read is a non-empty string that
    [float()] refuses, the attempt raises the conversion error right
    after the read, without sleeping and without [LockTimeout]; and when
    only locks ever write the key (timestamps that [float()] reads back)
    no run of [acquire] raises that error. *)
Theorem C10_value_error_iff_foreign_value :
  (∀ (w w1 w2 w3 : world) (now : Q) (v : string),
      time_time w = (Ok now, w1) →
      setnx (key self) (encode (now + expires self + 1)%Q) w1
      = (Ok false, w2) →
      get (key self) w2 = (Ok (Some v), w3) →
      truthy v = true →
      float v = None →
      attempt w = (Raise ValueError, w3)
      ∧ ∀ fuel budget, (0 <= budget)%Q →
          acquire_loop (S fuel) budget w = (Raise ValueError, w3))
  ∧ ((∀ q, float (encode q) ≠ None) →
     (∀ n s, lock_written s → lock_written (env n s)) →
     ∀ (fuel : nat) (w : world),
       lock_written (sh w) →
       (acquire fuel w).1 ≠ Raise ValueError).
Proof.
  split.
  - intros w w1 w2 w3 now v Ht Hs Hg Hv Hf.
    assert (attempt w = (Raise ValueError, w3)) as Ha.
    { unfold RedisLock.attempt, bind. rewrite Ht, Hs, Hg.
      unfold RedisLock.takeover, py_float, bind. by rewrite Hv, Hf. }
    split; [exact Ha|].
    intros fuel budget Hb. rewrite acquire_loop_turn by done. by rewrite Ha.
  - intros Hcodec Henv fuel w Hw.
    by apply acquire_loop_no_value_error.
Qed.

(** *** A lock that somebody else keeps holding *)

Lemma shared_eta (s : shared) : {| db := db s; wall := wall s |} = s.
Proof. by destruct s. Qed.

Lemma drift_add (a b k : nat) (s : shared) :
  drift k (a + b) s = drift (k + a) b (drift k a s).
Proof.
  revert k s. induction a as [|a IH]; intros k s; simpl.
  - by rewrite Nat.add_0_r.
  - rewrite IH. by rewrite Nat.add_succ_r.
Qed.

Lemma held_shift (m : nat) (w w' : world) :
  tick w' = (m + tick w)%nat →
  sh w' = drift (tick w) m (sh w) →
  held_throughout w → held_throughout w'.
Proof.
  intros Ht Hs Hw n. unfold RedisLock.seen_after.
  rewrite Ht, Hs, (Nat.add_comm m).
  rewrite <- !drift_add.
  replace (m + S n)%nat with (S (m + n)) by lia.
  replace (m + S (S n))%nat with (S (S (m + n))) by lia.
  exact (Hw (m + n)%nat).
Qed.

(** Under [held_throughout] an attempt fails after four operations and
    changes nothing in the store. *)
Lemma attempt_held (w : world) :
  held_throughout w →
  ∃ v c,
    attempt w
    = (Ok false,
       {| sh := seen_after w 3; tick := (4 + tick w)%nat;
          log := ETime (wall (seen_after w 3))
                 :: EGet (key self) (Some v)
                 :: ESetnx (key self) c false
                 :: ETime (wall (seen_after w 0)) :: log w |}).
Proof.
  intros Hw.
  destruct (Hw 1%nat) as (v1 & _ & Hv1 & _).
  destruct (Hw 2%nat) as (v & f & Hv & Htr & Hf & Hge).
  exists v, (encode (wall (seen_after w 0) + expires self + 1)%Q).
  unfold RedisLock.attempt, bind. rewrite time_time_eq, setnx_eq.
  cbn [tick sh log].
  change (seen {| sh := seen w; tick := S (tick w);
                  log := ETime (wall (seen w)) :: log w |})
    with (seen_after w 1).
  rewrite Hv1. rewrite get_eq. cbn [tick sh log]. rewrite shared_eta.
  change (seen {| sh := seen_after w 1; tick := S (S (tick w));
                  log := ESetnx (key self)
                           (encode (wall (seen w) + expires self + 1)%Q)
                           false
                         :: ETime (wall (seen w)) :: log w |})
    with (seen_after w 2).
  rewrite Hv. unfold RedisLock.takeover, py_float, bind, ret.
  rewrite Htr, Hf, time_time_eq. cbn [tick sh log]. rewrite shared_eta.
  change (seen {| sh := seen_after w 2; tick := S (S (S (tick w)));
                  log := EGet (key self) (Some v)
                         :: ESetnx (key self)
                              (encode (wall (seen w) + expires self + 1)%Q)
                              false
                         :: ETime (wall (seen w)) :: log w |})
    with (seen_after w 3).
  by rewrite (flt_ge_not_lt _ _ Hge).
Qed.

(** A turn of the loop under [held_throughout]: a failed attempt, the
    sleep, and the same situation again with a smaller budget. *)
Lemma held_turn (fuel : nat) (budget : Q) (w : world) :
  held_throughout w →
  (0 <= budget)%Q →
  (0 <= check_interval self)%Q →
  ∃ w' evs,
    acquire_loop (S fuel) budget w
    = acquire_loop fuel (budget - check_interval self)%Q w'
    ∧ held_throughout w'
    ∧ log w' = evs ++ log w
    ∧ count is_setnx evs = 1%nat
    ∧ count is_sleep evs = 1%nat
    ∧ count is_won_setnx evs = 0%nat
    ∧ count is_getset evs = 0%nat
    ∧ slept evs = (check_interval self + 0)%Q.
Proof.
  intros Hw Hb Hci. destruct (attempt_held w Hw) as (v & c & Ha).
  rewrite acquire_loop_turn by done. rewrite Ha.
  unfold bind at 1. rewrite time_sleep_eq by done.
  eexists. eexists [ESleep _; ETime _; EGet _ _; ESetnx _ _ false; ETime _].
  split; [reflexivity|]. split; [|by repeat split].
  by apply (held_shift 5 w).
Qed.

Lemma count_app (p : event → bool) (l1 l2 : list event) :
  count p (l1 ++ l2) = (count p l1 + count p l2)%nat.
Proof. induction l1 as [|e l1 IH]; simpl; [done|]. rewrite IH. lia. Qed.

Lemma slept_app (l1 l2 : list event) :
  (slept (l1 ++ l2) == slept l1 + slept l2)%Q.
Proof.
  induction l1 as [|e l1 IH]; simpl; [lra|].
  destruct e; try exact IH. rewrite IH. lra.
Qed.

Lemma time_sleep_negative (d : Q) (w : world) :
  (d < 0)%Q → time_sleep d w = (Raise SleepError, w).
Proof.
  intros Hd. unfold RedisLock.time_sleep.
  destruct (Qle_bool 0 d) eqn:E; [|reflexivity].
  apply Qle_bool_iff in E. exfalso. exact (Qlt_not_le _ _ Hd E).
Qed.

(** C1: while the key holds a claim that is unexpired at every check,
    [acquire] never returns: every [setnx] fails, [getset] is never
    called, and the call is still polling when the fuel ends or has
    raised [LockTimeout]. *)
Theorem C1_unexpired_lock_is_never_acquired (fuel : nat) (w : world) :
  held_throughout w →
  ∃ evs,
    log (acquire fuel w).2 = evs ++ log w
    ∧ (acquire fuel w).1 ≠ Ok tt
    ∧ count is_won_setnx evs = 0%nat
    ∧ count is_getset evs = 0%nat
    ∧ ((0 <= check_interval self)%Q →
       (acquire fuel w).1 = Diverge
       ∨ (acquire fuel w).1 = Raise LockTimeout).
Proof.
  unfold RedisLock.acquire. generalize (timeout self) as budget.
  revert w. induction fuel as [|fuel IH]; intros w budget Hw.
  { exists []. simpl. repeat split; auto. }
  destruct (Qlt_le_dec budget 0) as [Hb|Hb].
  { exists []. rewrite acquire_loop_spent by done. simpl.
    repeat split; auto. }
  destruct (Qlt_le_dec (check_interval self) 0) as [Hci|Hci].
  - (* the first sleep is refused *)
    destruct (attempt_held w Hw) as (v & c & Ha).
    rewrite acquire_loop_turn by done. rewrite Ha. unfold bind.
    rewrite time_sleep_negative by done.
    eexists [ETime _; EGet _ _; ESetnx _ _ false; ETime _]. simpl.
    repeat split; try done.
    intros Hci'. exfalso. exact (Qlt_not_le _ _ Hci Hci').
  - (* one more turn, then the induction hypothesis *)
    destruct (held_turn fuel budget w Hw Hb Hci)
      as (w' & evs1 & -> & Hw' & Hlog & _ & _ & Hwon & Hgs & _).
    destruct (IH w' (budget - check_interval self)%Q Hw')
      as (evs2 & Hlog2 & Hr & Hwon2 & Hgs2 & Hend).
    exists (evs2 ++ evs1). rewrite Hlog2, Hlog, !count_app, Hwon, Hgs.
    rewrite Hwon2, Hgs2. by rewrite (assoc_L (++)).
Qed.

(** With a positive interval and [n * interval <= budget < (n + 1) *
    interval], the loop makes [n + 1] attempts, sleeps after each of them
    and then raises [LockTimeout]. *)
Lemma held_times_out (n : nat) :
  ∀ (fuel : nat) (budget : Q) (w : world),
    held_throughout w →
    (0 < check_interval self)%Q →
    (inject_Z (Z.of_nat n) * check_interval self <= budget)%Q →
    (budget < (inject_Z (Z.of_nat n) + 1) * check_interval self)%Q →
    (n + 2 ≤ fuel)%nat →
    ∃ w' evs,
      acquire_loop fuel budget w = (Raise LockTimeout, w')
      ∧ log w' = evs ++ log w
      ∧ count is_setnx evs = S n
      ∧ count is_sleep evs = S n
      ∧ (slept evs == inject_Z (Z.of_nat (S n)) * check_interval self)%Q.
Proof.
  induction n as [|n IH]; intros fuel budget w Hw Hci Hlo Hhi Hfuel.
  - destruct fuel as [|[|fuel]]; [lia|lia|].
    change (inject_Z (Z.of_nat 0)) with 0%Q in *.
    assert (0 <= budget)%Q as Hb by lra.
    destruct (held_turn (S fuel) budget w Hw Hb)
      as (w' & evs & -> & _ & Hlog & Hn & Hs & _ & _ & Hsl); [lra|].
    exists w', evs. rewrite acquire_loop_spent by lra.
    repeat split; try done. rewrite Hsl.
    change (inject_Z (Z.of_nat 1)) with 1%Q. lra.
  - destruct fuel as [|fuel]; [lia|].
    rewrite Nat2Z.inj_succ, <- Z.add_1_r, inject_Z_plus in Hlo, Hhi.
    change (inject_Z 1) with 1%Q in *.
    assert (0 <= inject_Z (Z.of_nat n))%Q as Hn0.
    { change 0%Q with (inject_Z 0). rewrite <- Zle_Qle. lia. }
    assert (0 <= budget)%Q as Hb by nra.
    destruct (held_turn fuel budget w Hw Hb)
      as (w1 & evs1 & -> & Hw1 & Hlog1 & Hn1 & Hs1 & _ & _ & Hsl1); [lra|].
    destruct (IH fuel (budget - check_interval self)%Q w1 Hw1 Hci)
      as (w' & evs & Hrun & Hlog & Hcnt & Hsc & Hsl); [lra|lra|lia|].
    exists w', (evs ++ evs1). rewrite Hrun, Hlog, Hlog1, !count_app.
    rewrite Hn1, Hs1, Hcnt, Hsc, (assoc_L (++)).
    repeat split; try lia.
    rewrite slept_app, Hsl, Hsl1.
    rewrite (Nat2Z.inj_succ (S n)), <- Z.add_1_r, inject_Z_plus.
    change (inject_Z 1) with 1%Q. lra.
Qed.

Lemma int_budget_bounds (t c : Z) :
  int_budget self t c → (0 < c)%Z → (0 <= t)%Z →
  let n := Z.to_nat (t / c) in
  (0 < check_interval self)%Q
  ∧ (0 <= timeout self)%Q
  ∧ (inject_Z (Z.of_nat n) * check_interval self <= timeout self)%Q
  ∧ (timeout self < (inject_Z (Z.of_nat n) + 1) * check_interval self)%Q.
Proof.
  intros [Ht Hc] Hcpos Htpos n. rewrite Ht, Hc.
  assert (0 <= t / c)%Z as Hdiv by (apply Z.div_pos; lia).
  pose proof (Z.mul_div_le t c Hcpos) as Hlo.
  pose proof (Z.mul_succ_div_gt t c Hcpos) as Hhi.
  unfold n. rewrite Z2Nat.id by done.
  split; [change 0%Q with (inject_Z 0); rewrite <- Zlt_Qlt; lia|].
  split; [change 0%Q with (inject_Z 0); rewrite <- Zle_Qle; lia|].
  change 1%Q with (inject_Z 1).
  rewrite <- inject_Z_plus, <- !inject_Z_mult, <- Zle_Qle, <- Zlt_Qlt.
  lia.
Qed.

(** C5 (amended): against a lock that stays held, with a timeout and an
    interval that are integers (so that the budget is lowered exactly),
    the interval positive and the timeout not negative, every failed
    attempt is followed by a turn with the budget lowered by the
    interval, and [acquire] raises [LockTimeout] after exactly
    [timeout / check_interval + 1] attempts, the quotient rounded down
    (11 for a timeout of 10 and an interval of 1). *)
Theorem C5_attempts_before_timeout (t c : Z) (w : world) :
  int_budget self t c →
  held_throughout w →
  (0 < c)%Z →
  (0 <= t)%Z →
  let n := Z.to_nat (t / c) in
  (∀ fuel (b : Z), (0 <= b)%Z →
     ∃ w', acquire_loop (S fuel) (inject_Z b) w
           = acquire_loop fuel (inject_Z b - check_interval self)%Q w')
  ∧ ∀ fuel, (n + 2 ≤ fuel)%nat →
      ∃ w' evs,
        acquire fuel w = (Raise LockTimeout, w')
        ∧ log w' = evs ++ log w
        ∧ count is_setnx evs = (n + 1)%nat.
Proof.
  intros Hint Hw Hc Ht n.
  destruct (int_budget_bounds t c Hint Hc Ht) as (Hci & _ & Hlo & Hhi).
  fold n in Hlo, Hhi. split.
  - intros fuel b Hb.
    assert (0 <= inject_Z b)%Q as Hb'.
    { change 0%Q with (inject_Z 0). by rewrite <- Zle_Qle. }
    destruct (held_turn fuel (inject_Z b) w Hw Hb')
      as (w' & _ & Hrun & _); [lra|].
    by exists w'.
  - intros fuel Hfuel.
    destruct (held_times_out n fuel (timeout self) w Hw Hci Hlo Hhi Hfuel)
      as (w' & evs & Hrun & Hlog & Hcnt & _).
    exists w', evs. repeat split; [done|done|]. rewrite Hcnt. lia.
Qed.

(** C4: with a timeout of zero and a positive interval, [acquire] makes
    its one attempt, and when that attempt fails it still sleeps one full
    interval before it raises [LockTimeout]: the sleep is the last thing
    in the log. *)
Theorem C4_timeout_zero_sleeps_once (fuel : nat) (w w1 : world) :
  (timeout self == 0)%Q →
  (0 < check_interval self)%Q →
  attempt w = (Ok false, w1) →
  ∃ w2,
    time_sleep (check_interval self) w1 = (Ok tt, w2)
    ∧ log w2 = ESleep (check_interval self) :: log w1
    ∧ acquire (S (S fuel)) w = (Raise LockTimeout, w2).
Proof.
  intros Ht Hci Ha. eexists. split; [apply time_sleep_eq; lra|].
  split; [reflexivity|].
  unfold RedisLock.acquire. rewrite acquire_loop_turn by lra. rewrite Ha.
  unfold bind. rewrite time_sleep_eq by lra.
  apply acquire_loop_spent. lra.
Qed.

(** *** Every run, whatever the other clients do *)

Lemma step_time (w : world) :
  ∃ w', time_time w = (Ok (wall (seen w)), w')
        ∧ log w' = ETime (wall (seen w)) :: log w.
Proof. eexists. by rewrite time_time_eq. Qed.

Lemma step_setnx (k v : string) (w : world) :
  ∃ b w', setnx k v w = (Ok b, w') ∧ log w' = ESetnx k v b :: log w.
Proof.
  rewrite setnx_eq. destruct (db (seen w) !! k); by eexists _, _.
Qed.

Lemma step_get (k : string) (w : world) :
  ∃ r w', get k w = (Ok r, w') ∧ log w' = EGet k r :: log w.
Proof. eexists _, _. by rewrite get_eq. Qed.

Lemma step_getset (k v : string) (w : world) :
  ∃ r w', getset k v w = (Ok r, w') ∧ log w' = EGetset k v r :: log w.
Proof. eexists _, _. by rewrite getset_eq. Qed.

Local Ltac own_keys :=
  repeat (apply List.Forall_cons; [simpl; auto|]); apply List.Forall_nil.

(** What an attempt sends: one [setnx], no sleep, no delete, and nothing
    on another key. *)
Lemma attempt_shape (w : world) :
  ∃ evs,
    log (attempt w).2 = evs ++ log w
    ∧ (attempt w).1 ≠ Diverge
    ∧ count is_setnx evs = 1%nat
    ∧ count is_sleep evs = 0%nat
    ∧ count is_delete evs = 0%nat
    ∧ slept evs = 0%Q
    ∧ Forall (λ e, event_key e = None ∨ event_key e = Some (key self)) evs.
Proof.
  destruct (step_time w) as (w1 & E1 & L1).
  unfold RedisLock.attempt, bind. rewrite E1.
  set (c := encode (wall (seen w) + expires self + 1)%Q).
  destruct (step_setnx (key self) c w1) as (b & w2 & E2 & L2). rewrite E2.
  destruct b.
  { exists [ESetnx (key self) c true; ETime (wall (seen w))].
    simpl. rewrite L2, L1. repeat split; try done.
    own_keys. }
  destruct (step_get (key self) w2) as (cv & w3 & E3 & L3). rewrite E3.
  unfold RedisLock.takeover, py_float, bind, ret, raise.
  assert (∃ evs3, log w3 = evs3 ++ log w
            ∧ evs3 = [EGet (key self) cv; ESetnx (key self) c false;
                      ETime (wall (seen w))]) as (evs3 & L & ->).
  { eexists. split; [|reflexivity]. by rewrite L3, L2, L1. }
  assert (Forall (λ e, event_key e = None ∨ event_key e = Some (key self))
            [EGet (key self) cv; ESetnx (key self) c false;
             ETime (wall (seen w))]) as Hown.
  { own_keys. }
  destruct cv as [v|]; [destruct (truthy v)|];
    [destruct (float v) as [f|]| |]; try (eexists; by repeat split).
  destruct (step_time w3) as (w4 & E4 & L4). rewrite E4.
  destruct (flt_ltb f (wall (seen w3))).
  - destruct (step_getset (key self) c w4) as (old & w5 & E5 & L5).
    fold c. rewrite E5.
    exists (EGetset (key self) c old :: ETime (wall (seen w3))
            :: [EGet (key self) (Some v); ESetnx (key self) c false;
                ETime (wall (seen w))]).
    simpl. rewrite L5, L4, L. repeat split; try done.
    own_keys.
  - exists (ETime (wall (seen w3))
            :: [EGet (key self) (Some v); ESetnx (key self) c false;
                ETime (wall (seen w))]).
    simpl. rewrite L4, L. repeat split; try done.
    own_keys.
Qed.

(** The same for the whole loop. *)
Lemma acquire_loop_events (fuel : nat) :
  ∀ (budget : Q) (w : world),
    ∃ evs,
      log (acquire_loop fuel budget w).2 = evs ++ log w
      ∧ count is_delete evs = 0%nat
      ∧ Forall (λ e, event_key e = None ∨ event_key e = Some (key self))
          evs.
Proof.
  induction fuel as [|fuel IH]; intros budget w.
  { by exists []. }
  destruct (Qlt_le_dec budget 0) as [Hb|Hb].
  { exists []. by rewrite acquire_loop_spent. }
  rewrite acquire_loop_turn by done.
  destruct (attempt_shape w) as (evs & L & _ & _ & _ & Hdel & _ & Hown).
  destruct (attempt w) as [r w1]. simpl in L.
  destruct r as [[]|e|]; try (exists evs; by repeat split).
  unfold bind, RedisLock.time_sleep.
  destruct (Qle_bool 0 (check_interval self));
    [|exists evs; by repeat split].
  unfold op. set (w2 := {| sh := seen w1 |}).
  destruct (IH (budget - check_interval self)%Q w2)
    as (evs' & L' & Hdel' & Hown').
  exists (evs' ++ ESleep (check_interval self) :: evs).
  rewrite L'. simpl. rewrite L, count_app. simpl. rewrite Hdel', Hdel.
  split; [by rewrite <- (assoc_L (++))|]. split; [done|].
  apply Forall_app. split; [done|]. constructor; [by left|done].
Qed.

(** X1: whatever the other clients do and however the call ends,
    [acquire] only ever names its own key in the commands it sends, and
    [DEL] is never among them. *)
Theorem acquire_touches_only_its_key (fuel : nat) (w : world) :
  ∃ evs,
    log (acquire fuel w).2 = evs ++ log w
    ∧ count is_delete evs = 0%nat
    ∧ Forall (λ e, event_key e = None ∨ event_key e = Some (key self)) evs.
Proof. apply acquire_loop_events. Qed.

(** X2: when [acquire] raises, the [with] statement raises the same
    exception in the state [acquire] left: the body has not run and
    [release] has not been called, so no [DEL] is in the log. *)
Theorem failed_acquire_skips_body_and_release
    (fuel : nat) (body : M unit) (w w1 : world) (e : exn) :
  enter env encode float self fuel w = (Raise e, w1) →
  with_lock fuel body w = (Raise e, w1)
  ∧ ∃ evs, log w1 = evs ++ log w ∧ count is_delete evs = 0%nat.
Proof.
  intros He. split.
  - unfold RedisLock.with_lock, with_. by rewrite He.
  - destruct (acquire_loop_events fuel (timeout self) w)
      as (evs & L & Hdel & _).
    unfold enter, RedisLock.acquire in He. rewrite He in L.
    by exists evs.
Qed.

(** An attempt that gains the lock leaves the caller's timestamp under
    the key. *)
Lemma attempt_won (w w' : world) :
  attempt w = (Ok true, w') →
  db (sh w') !! key self
  = Some (encode (wall (seen w) + expires self + 1)%Q).
Proof.
  unfold RedisLock.attempt, bind. rewrite time_time_eq, setnx_eq.
  cbn [sh tick log].
  set (c := encode (wall (seen w) + expires self + 1)%Q).
  destruct (db _ !! key self) as [v0|].
  - rewrite get_eq. unfold RedisLock.takeover, py_float, bind, ret, raise.
    destruct (db _ !! key self) as [v|]; [|done].
    destruct (truthy v); [|done]. destruct (float v) as [f|]; [|done].
    rewrite time_time_eq. destruct (flt_ltb f _); [|done].
    rewrite getset_eq. intros [= _ <-]. simpl. apply lookup_insert_eq.
  - unfold ret. intros [= <-]. simpl. apply lookup_insert_eq.
Qed.

(** A loop that returns had a budget that was not negative and ended
    on an attempt that gained the lock. *)
Lemma acquire_loop_won (fuel : nat) :
  ∀ (budget : Q) (w w' : world),
    acquire_loop fuel budget w = (Ok tt, w') →
    (0 <= budget)%Q ∧ ∃ w0, attempt w0 = (Ok true, w').
Proof.
  induction fuel as [|fuel IH]; intros budget w w'; [done|].
  destruct (Qlt_le_dec budget 0) as [Hb|Hb].
  { by rewrite acquire_loop_spent. }
  rewrite acquire_loop_turn by done.
  destruct (attempt w) as [[[]|e|] w1] eqn:Ha; try done.
  - intros [= <-]. split; [done|]. by exists w.
  - unfold bind. destruct (time_sleep _ w1) as [[[]|e|] w2]; try done.
    intros Hrun. split; [done|]. by destruct (IH _ _ _ Hrun) as [_ ?].
Qed.

(** X3: [acquire] can only return when the timeout is not negative, and
    when it returns its last attempt has gained the lock: at that moment
    the key holds [now + expires + 1] for the clock value [now] that this
    attempt read first. *)
Theorem acquire_returns_holding (fuel : nat) (w w' : world) :
  acquire fuel w = (Ok tt, w') →
  (0 <= timeout self)%Q
  ∧ ∃ w0,
      attempt w0 = (Ok true, w')
      ∧ db (sh w') !! key self
        = Some (encode (wall (seen w0) + expires self + 1)%Q).
Proof.
  intros Hrun.
  destruct (acquire_loop_won _ _ _ _ Hrun) as (Hb & w0 & Ha).
  split; [done|]. exists w0. split; [done|]. by apply attempt_won.
Qed.

(** X4: with a timeout and an interval that are integers, the interval
    positive and the timeout not negative, [acquire] ends whatever the
    other clients do: given fuel for [timeout / check_interval + 2] turns
    it does not run out, it has made at most [timeout / check_interval +
    1] attempts (the quotient rounded down) and slept as many intervals
    at most. *)
Theorem acquire_terminates (t c : Z) (fuel : nat) (w : world) :
  int_budget self t c →
  (0 < c)%Z →
  (0 <= t)%Z →
  let n := Z.to_nat (t / c) in
  (n + 2 ≤ fuel)%nat →
  ∃ evs,
    log (acquire fuel w).2 = evs ++ log w
    ∧ (acquire fuel w).1 ≠ Diverge
    ∧ (count is_setnx evs ≤ n + 1)%nat
    ∧ (count is_sleep evs ≤ n + 1)%nat
    ∧ (slept evs == inject_Z (Z.of_nat (count is_sleep evs))
                    * check_interval self)%Q.
Proof.
  intros Hint Hc Ht n Hfuel.
  destruct (int_budget_bounds t c Hint Hc Ht) as (Hci & _ & _ & Hhi).
  fold n in Hhi. clear Hint Hc Ht. clearbody n.
  unfold RedisLock.acquire. revert Hhi Hfuel.
  generalize (timeout self) as budget. revert fuel w.
  induction n as [|n IH]; intros fuel w budget Hhi Hfuel.
  - destruct fuel as [|[|fuel]]; [lia|lia|].
    change (inject_Z (Z.of_nat 0)) with 0%Q in Hhi.
    destruct (Qlt_le_dec budget 0) as [Hb|Hb].
    { exists []. rewrite acquire_loop_spent by done. simpl.
      repeat split; try done; try lia; lra. }
    rewrite acquire_loop_turn by done.
    destruct (attempt_shape w) as (evs & L & Hd & Hn & Hs & _ & Hsl & _).
    destruct (attempt w) as [r w1]. simpl in L, Hd.
    assert (slept evs == inject_Z (Z.of_nat (count is_sleep evs))
                         * check_interval self)%Q as Hq.
    { rewrite Hsl, Hs. change (inject_Z (Z.of_nat 0)) with 0%Q. lra. }
    destruct r as [[]|e|]; try done;
      try (exists evs; simpl; repeat split; try done; lia).
    unfold bind. rewrite time_sleep_eq by lra.
    rewrite acquire_loop_spent by lra.
    exists (ESleep (check_interval self) :: evs). simpl. rewrite L, Hn, Hs.
    repeat split; try done; try lia. rewrite Hsl.
    change (inject_Z (Z.of_nat 1)) with 1%Q. lra.
  - destruct fuel as [|fuel]; [lia|].
    rewrite Nat2Z.inj_succ, <- Z.add_1_r, inject_Z_plus in Hhi.
    change (inject_Z 1) with 1%Q in Hhi.
    destruct (Qlt_le_dec budget 0) as [Hb|Hb].
    { exists []. rewrite acquire_loop_spent by done. simpl.
      repeat split; try done; try lia; lra. }
    rewrite acquire_loop_turn by done.
    destruct (attempt_shape w) as (evs & L & Hd & Hn & Hs & _ & Hsl & _).
    destruct (attempt w) as [r w1]. simpl in L, Hd.
    assert (slept evs == inject_Z (Z.of_nat (count is_sleep evs))
                         * check_interval self)%Q as Hq.
    { rewrite Hsl, Hs. change (inject_Z (Z.of_nat 0)) with 0%Q. lra. }
    destruct r as [[]|e|]; try done;
      try (exists evs; simpl; repeat split; try done; lia).
    unfold bind. rewrite time_sleep_eq by lra.
    set (w2 := {| sh := seen w1 |}).
    destruct (IH fuel w2 (budget - check_interval self)%Q)
      as (evs' & L' & Hd' & Hn' & Hs' & Hsl'); [lra|lia|].
    exists (evs' ++ ESleep (check_interval self) :: evs).
    rewrite L'. simpl. rewrite L, !count_app. simpl. rewrite Hn, Hs.
    split; [by rewrite <- (assoc_L (++))|]. split; [done|].
    split; [lia|]. split; [lia|].
    rewrite slept_app. simpl. rewrite Hsl, Hsl'.
    replace (count is_sleep evs' + 1)%nat with (S (count is_sleep evs'))
      by lia.
    rewrite Nat2Z.inj_succ, <- Z.add_1_r, inject_Z_plus.
    change (inject_Z 1) with 1%Q. lra.
Qed.

(** X5: against a lock that stays held, with a timeout and an interval
    that are integers, the interval positive and the timeout not
    negative, the call sleeps after every one of its [timeout /
    check_interval + 1] attempts (the quotient rounded down), the last
    one included: the time slept before [LockTimeout] is that many
    intervals and is longer than [timeout]. *)
Theorem held_lock_sleep_exceeds_timeout
    (t c : Z) (fuel : nat) (w : world) :
  int_budget self t c →
  held_throughout w →
  (0 < c)%Z →
  (0 <= t)%Z →
  let n := Z.to_nat (t / c) in
  (n + 2 ≤ fuel)%nat →
  ∃ w' evs,
    acquire fuel w = (Raise LockTimeout, w')
    ∧ log w' = evs ++ log w
    ∧ count is_sleep evs = (n + 1)%nat
    ∧ (slept evs == inject_Z (Z.of_nat (n + 1)) * check_interval self)%Q
    ∧ (timeout self < slept evs)%Q.
Proof.
  intros Hint Hw Hc Ht n Hfuel.
  destruct (int_budget_bounds t c Hint Hc Ht) as (Hci & _ & Hlo & Hhi).
  fold n in Hlo, Hhi.
  destruct (held_times_out n fuel (timeout self) w Hw Hci Hlo Hhi Hfuel)
    as (w' & evs & Hrun & Hlog & _ & Hs & Hsl).
  exists w', evs. replace (n + 1)%nat with (S n) by lia.
  repeat split; try done. rewrite Hsl.
  rewrite Nat2Z.inj_succ, <- Z.add_1_r, inject_Z_plus.
  change (inject_Z 1) with 1%Q. lra.
Qed.

(** X6: with an interval of zero the budget never shrinks: against a
    lock that stays held, a call whose timeout is not negative polls
    without end and never raises [LockTimeout]. *)
Theorem zero_interval_never_gives_up (fuel : nat) (w : world) :
  held_throughout w →
  (check_interval self == 0)%Q →
  (0 <= timeout self)%Q →
  ∃ evs,
    (acquire fuel w).1 = Diverge
    ∧ log (acquire fuel w).2 = evs ++ log w
    ∧ count is_setnx evs = fuel
    ∧ count is_sleep evs = fuel.
Proof.
  intros Hw Hci. unfold RedisLock.acquire.
  generalize (timeout self) as budget. revert w Hw.
  induction fuel as [|fuel IH]; intros w Hw budget Hb.
  { by exists []. }
  destruct (held_turn fuel budget w Hw Hb)
    as (w' & evs1 & -> & Hw' & Hlog & Hn & Hs & _); [lra|].
  destruct (IH w' Hw' (budget - check_interval self)%Q)
    as (evs & Hrun & Hlog' & Hn' & Hs'); [lra|].
  exists (evs ++ evs1). rewrite Hlog', Hlog, !count_app, Hn, Hs, Hn', Hs'.
  split; [done|]. split; [by rewrite (assoc_L (++))|]. lia.
Qed.

(** X7: with a negative interval the first failed attempt ends the call:
    [time.sleep] refuses the negative duration and its exception leaves
    [acquire], whatever the timeout; [LockTimeout] is never raised. *)
Theorem negative_interval_sleep_raises
    (fuel : nat) (w w1 : world) :
  (check_interval self < 0)%Q →
  (0 <= timeout self)%Q →
  attempt w = (Ok false, w1) →
  acquire (S fuel) w = (Raise SleepError, w1).
Proof.
  intros Hci Ht Ha. unfold RedisLock.acquire.
  rewrite acquire_loop_turn by done. rewrite Ha.
  unfold bind. by rewrite time_sleep_negative.
Qed.

(** X8: when [setnx] fails and the read that follows finds the key gone
    or holding the empty string, the attempt gives up at once: [float] is
    not called, the clock is not read again, [getset] is not sent, and
    the loop goes to sleep before it tries [setnx] again. *)
Theorem falsy_value_is_not_taken_over
    (w w1 w2 w3 : world) (now : Q) (current_value : option string) :
  time_time w = (Ok now, w1) →
  setnx (key self) (encode (now + expires self + 1)%Q) w1 = (Ok false, w2) →
  get (key self) w2 = (Ok current_value, w3) →
  current_value = None ∨ current_value = Some EmptyString →
  attempt w = (Ok false, w3)
  ∧ ∀ fuel budget, (0 <= budget)%Q →
      acquire_loop (S fuel) budget w
      = (time_sleep (check_interval self) ;;
         acquire_loop fuel (budget - check_interval self)%Q) w3.
Proof.
  intros Ht Hs Hg Hcv.
  assert (attempt w = (Ok false, w3)) as Ha.
  { unfold RedisLock.attempt, bind. rewrite Ht, Hs, Hg.
    by destruct Hcv as [->| ->]. }
  split; [exact Ha|].
  intros fuel budget Hb. rewrite acquire_loop_turn by done. by rewrite Ha.
Qed.

(** X9: a value that [float] reads as the positive infinity or as a
    not-a-number is never below the clock: the attempt fails after the
    second clock reading and sends no [getset], at whatever time it is
    made.  (The negative infinity is below every clock reading and is
    treated as expired.) *)
Theorem never_expiring_value_is_not_taken_over
    (w w1 w2 w3 w4 : world) (now now' : Q) (v : string) (f : pyfloat) :
  time_time w = (Ok now, w1) →
  setnx (key self) (encode (now + expires self + 1)%Q) w1 = (Ok false, w2) →
  get (key self) w2 = (Ok (Some v), w3) →
  truthy v = true →
  float v = Some f →
  f = PosInf ∨ f = NaN →
  time_time w3 = (Ok now', w4) →
  attempt w = (Ok false, w4).
Proof.
  intros Ht Hs Hg Hv Hf Hspecial Ht'.
  unfold RedisLock.attempt, bind. rewrite Ht, Hs, Hg.
  unfold RedisLock.takeover, py_float, bind, ret.
  rewrite Hv, Hf, Ht'. by destruct Hspecial as [->| ->].
Qed.

(** X10: [release] does not look at what the key holds: whoever calls
    it, the key is gone afterwards, and if nobody puts it back before
    the next [setnx] a following [acquire] gains the lock on its first
    attempt. *)
Theorem release_then_acquire
    (fuel : nat) (w w1 w2 : world) (now : Q) :
  release w = (Ok tt, w1) →
  time_time w1 = (Ok now, w2) →
  db (seen w2) !! key self = None →
  (0 <= timeout self)%Q →
  db (sh w1) !! key self = None
  ∧ ∃ w3,
      (release ;; acquire (S fuel)) w = (Ok tt, w3)
      ∧ log w3
        = ESetnx (key self) (encode (now + expires self + 1)%Q) true
          :: ETime now :: EDelete (key self) :: log w
      ∧ db (sh w3) !! key self
        = Some (encode (now + expires self + 1)%Q).
Proof.
  intros Hr Ht Habs Htmo.
  assert (db (sh w1) !! key self = None
          ∧ log w1 = EDelete (key self) :: log w) as [Hgone L1].
  { rewrite release_eq in Hr. injection Hr as <-. simpl.
    split; [apply lookup_delete_eq|done]. }
  assert (log w2 = ETime now :: log w1) as L2.
  { rewrite time_time_eq in Ht. by injection Ht as <- <-. }
  split; [exact Hgone|].
  pose proof (setnx_eq (key self) (encode (now + expires self + 1)%Q) w2)
    as Hs.
  rewrite Habs in Hs.
  eexists. split.
  { unfold bind at 1. rewrite Hr.
    unfold RedisLock.acquire. rewrite acquire_loop_turn by done.
    unfold RedisLock.attempt, bind. rewrite Ht. cbv zeta. by rewrite Hs. }
  split; simpl; [by rewrite L2, L1|apply lookup_insert_eq].
Qed.

Lemma drift_db (k n : nat) (s : shared) :
  (∀ m s', db (env m s') = db s') → db (drift k n s) = db s.
Proof.
  intros Hq. revert k s. induction n as [|n IH]; intros k s; simpl; [done|].
  by rewrite IH, Hq.
Qed.

Lemma drift_last (k n : nat) (s : shared) :
  drift k (S n) s = env (k + n) (drift k n s).
Proof.
  replace (S n) with (n + 1)%nat by lia. by rewrite drift_add.
Qed.

(** Under [held_throughout], whatever the budget, a run never returns,
    never wins [setnx] and never sends [getset]. *)
Lemma held_never_won (fuel : nat) :
  ∀ (budget : Q) (w : world),
    held_throughout w →
    ∃ evs,
      log (acquire_loop fuel budget w).2 = evs ++ log w
      ∧ (acquire_loop fuel budget w).1 ≠ Ok tt
      ∧ count is_won_setnx evs = 0%nat
      ∧ count is_getset evs = 0%nat.
Proof.
  induction fuel as [|fuel IH]; intros budget w Hw.
  { by exists []. }
  destruct (Qlt_le_dec budget 0) as [Hb|Hb].
  { exists []. by rewrite acquire_loop_spent. }
  destruct (Qlt_le_dec (check_interval self) 0) as [Hci|Hci].
  - destruct (attempt_held w Hw) as (v & c & Ha).
    rewrite acquire_loop_turn by done. rewrite Ha. unfold bind.
    rewrite time_sleep_negative by done.
    by eexists [ETime _; EGet _ _; ESetnx _ _ false; ETime _].
  - destruct (held_turn fuel budget w Hw Hb Hci)
      as (w' & evs1 & -> & Hw' & Hlog & _ & _ & Hwon & Hgs & _).
    destruct (IH (budget - check_interval self)%Q w' Hw')
      as (evs2 & Hlog2 & Hr & Hwon2 & Hgs2).
    exists (evs2 ++ evs1). rewrite Hlog2, Hlog, !count_app, Hwon, Hgs.
    rewrite Hwon2, Hgs2. by rewrite (assoc_L (++)).
Qed.

(** X11: once a caller has acquired the lock, as long as nobody else
    writes to the store and the clock stays within [expires] seconds, a
    second [acquire] on the same key, by the holder itself or by anybody
    else, does not get the lock: it never returns, never wins [setnx]
    and never sends [getset]; and when its timeout and interval are
    integers, the interval positive and the timeout not negative, it
    ends in [LockTimeout].  The timestamps written have to come back
    from [float] as numbers less than a second below what was written. *)
Theorem held_lock_excludes_second_acquire
    (t0 : Q) (fuel0 : nat) (w w1 : world) :
  (∀ q, truthy (encode q) = true) →
  (∀ q, ∃ q', float (encode q) = Some (Fin q') ∧ (q - 1 <= q')%Q) →
  (∀ n s, db (env n s) = db s) →
  (∀ n s, (t0 <= wall (env n s))%Q
          ∧ (wall (env n s) <= t0 + expires self)%Q) →
  acquire fuel0 w = (Ok tt, w1) →
  (∀ fuel,
     ∃ evs,
       log (acquire fuel w1).2 = evs ++ log w1
       ∧ (acquire fuel w1).1 ≠ Ok tt
       ∧ count is_won_setnx evs = 0%nat
       ∧ count is_getset evs = 0%nat)
  ∧ ∀ (t c : Z) (fuel : nat),
      int_budget self t c →
      (0 < c)%Z →
      (0 <= t)%Z →
      (Z.to_nat (t / c) + 2 ≤ fuel)%nat →
      ∃ w', acquire fuel w1 = (Raise LockTimeout, w').
Proof.
  intros Htruthy Hcodec Hquiet Hclock Hrun.
  destruct (acquire_loop_won _ _ _ _ Hrun) as (_ & w0 & Ha).
  pose proof (attempt_won _ _ Ha) as Hkey.
  set (q := (wall (seen w0) + expires self + 1)%Q) in Hkey.
  destruct (Hcodec q) as (q' & Hq' & Hclose).
  assert (held_throughout w1) as Hheld.
  { intros n. exists (encode q), (Fin q').
    assert (wall (seen_after w1 (S n)) <= q')%Q as Hlive.
    { unfold RedisLock.seen_after. rewrite drift_last.
      destruct (Hclock (tick w1 + S n)%nat
                  (drift (tick w1) (S n) (sh w1))) as [_ Hup].
      destruct (Hclock (tick w0) (sh w0)) as [Hlo _].
      unfold q in Hclose. unfold RedisLock.seen in Hclose. lra. }
    unfold RedisLock.seen_after at 1. rewrite drift_db by done.
    by repeat split. }
  split.
  - intros fuel. by apply held_never_won.
  - intros t c fuel Hint Hc Ht Hfuel.
    destruct (int_budget_bounds t c Hint Hc Ht) as (Hci & _ & Hlo & Hhi).
    destruct (held_times_out _ fuel (timeout self) w1 Hheld Hci Hlo Hhi
                Hfuel) as (w' & _ & Hrun' & _).
    by exists w'.
Qed.

(** *** The scoped use *)

(** C7: once [acquire] has succeeded, [release] runs after the body on
    both ways out of it: it is the last operation of the statement and
    deletes the key; the statement ends the way the body ended, so an
    exception of the body reaches the caller. *)
Theorem C7_release_on_every_exit
    (fuel : nat) (body : M unit) (w w1 w2 : world) (r : res unit) :
  enter env encode float self fuel w = (Ok tt, w1) →
  body w1 = (r, w2) →
  r ≠ Diverge →
  ∃ w3,
    release w2 = (Ok tt, w3)
    ∧ with_lock fuel body w = (r, w3)
    ∧ log w3 = EDelete (key self) :: log w2
    ∧ db (sh w3) !! key self = None.
Proof.
  intros He Hb Hr. eexists. split; [apply release_eq|].
  split; [|split; [reflexivity|simpl; apply lookup_delete_eq]].
  unfold RedisLock.with_lock, with_. rewrite He, Hb.
  destruct r as [[]|e|]; [| |done].
  - unfold exit, bind. by rewrite release_eq.
  - unfold exit, bind. by rewrite release_eq.
Qed.

End LockProperties.

(** ** The rate-limit guard *)

Section RateLimitProperties.

Import RateLimit.

Lemma live_touch (k : string * string) (s : Store) :
  live k (touch s) = live k s.
Proof. reflexivity. Qed.

Lemma live_open (k : string * string) (u : Z) (deadline : Q) (s : Store) :
  open_window k u deadline s → live k s = Some (u, Some deadline).
Proof.
  intros [Hc Hlt]. unfold live. rewrite Hc.
  apply Qltb_lt in Hlt. by rewrite Hlt.
Qed.

Lemma usage_open (k : string * string) (u : Z) (deadline : Q) (s : Store) :
  open_window k u deadline s → usage_of k s = u.
Proof. intros H. unfold usage_of. by rewrite (live_open _ _ _ _ H). Qed.

Lemma same_settings_refl (g : Guard) : same_settings g g.
Proof. by repeat split. Qed.

Lemma same_settings_trans (g1 g2 g3 : Guard) :
  same_settings g1 g2 → same_settings g2 g3 → same_settings g1 g3.
Proof.
  intros (?&?&?&?&?) (?&?&?&?&?). repeat split; congruence.
Qed.

Lemma counter_key_same (g g' : Guard) :
  same_settings g g' → counter_key g' = counter_key g.
Proof. intros (Hr & Hc & _). unfold counter_key. by rewrite Hr, Hc. Qed.

(** A scoped use with an empty body inside an open window that has room
    left: it succeeds and counts one more. *)
Lemma scope_in_window (fuel : nat) (g : Guard) (s : Store)
    (u : Z) (deadline : Q) :
  open_window (counter_key g) u deadline s →
  (1 ≤ u)%Z → (u < max_requests g)%Z →
  in_context g = false →
  ∃ g' s',
    scope (S fuel) pass g s = (Done, g', s')
    ∧ open_window (counter_key g) (u + 1) deadline s'
    ∧ clock s' = clock s
    ∧ same_settings g g'
    ∧ in_context g' = false.
Proof.
  intros Hopen Hu Hmax Hctx.
  pose proof (live_open _ _ _ _ Hopen) as Hlive.
  pose proof (usage_open _ _ _ _ Hopen) as Husage.
  unfold scope, enter. rewrite Hctx. simpl.
  unfold get_usage, read. rewrite Husage.
  rewrite bool_decide_eq_true_2 by done.
  unfold claim, increment. rewrite live_touch, Hlive.
  rewrite bool_decide_eq_false_2 by lia.
  eexists _, _. split; [reflexivity|].
  split; [|by repeat split].
  destruct Hopen as [_ Hlt]. split; [|exact Hlt].
  simpl. apply lookup_insert_eq.
Qed.

(** The first scoped use on a key that reads as absent opens the window. *)
Lemma scope_opens_window (fuel : nat) (g : Guard) (s : Store) :
  live (counter_key g) s = None →
  (0 < max_requests g)%Z →
  (0 < expire g)%Q →
  in_context g = false →
  ∃ g' s',
    scope (S fuel) pass g s = (Done, g', s')
    ∧ open_window (counter_key g) 1 (clock s + expire g) s'
    ∧ clock s' = clock s
    ∧ same_settings g g'
    ∧ in_context g' = false.
Proof.
  intros Hlive Hmax Hexp Hctx.
  unfold scope, enter. rewrite Hctx. simpl.
  unfold get_usage, read, usage_of. rewrite Hlive.
  rewrite bool_decide_eq_true_2 by done.
  unfold claim, increment. rewrite live_touch, Hlive.
  rewrite bool_decide_eq_true_2 by done.
  unfold expire_in, live. simpl. rewrite lookup_insert_eq.
  eexists _, _. split; [reflexivity|].
  split; [|by repeat split].
  split; [simpl; apply lookup_insert_eq|simpl; lra].
Qed.

(** A row of scoped uses inside an open window. *)
Lemma requests_in_window (fuel : nat) (pauses : list Q) :
  ∀ (g : Guard) (s : Store) (u : Z) (deadline : Q),
    open_window (counter_key g) u deadline s →
    (1 ≤ u)%Z →
    (u + Z.of_nat (length pauses) ≤ max_requests g)%Z →
    in_context g = false →
    Forall (λ d, 0 <= d)%Q pauses →
    (clock s + total pauses < deadline)%Q →
    ∃ g' s',
      requests (S fuel) pauses g s = (Done, g', s')
      ∧ open_window (counter_key g) (u + Z.of_nat (length pauses))
          deadline s'
      ∧ (clock s' == clock s + total pauses)%Q
      ∧ same_settings g g'
      ∧ in_context g' = false.
Proof.
  induction pauses as [|d pauses IH];
    intros g s u deadline Hopen Hu Hroom Hctx Hpos Htime.
  - exists g, s. simpl in *. rewrite Z.add_0_r.
    repeat split; try done; try apply Hopen. lra.
  - apply Forall_cons in Hpos as [Hd Hpos].
    assert (0 <= total pauses)%Q as Htot.
    { clear -Hpos. induction Hpos; simpl; [lra|]. unfold total in *. lra. }
    change (total (d :: pauses)) with (d + total pauses)%Q in *.
    simpl length in Hroom. rewrite Nat2Z.inj_succ in Hroom.
    assert (open_window (counter_key g) u deadline (elapse d s)) as Hopen'.
    { destruct Hopen as [Hc Hlt]. split; [exact Hc|]. simpl. lra. }
    destruct (scope_in_window fuel g (elapse d s) u deadline Hopen')
      as (g1 & s1 & Hrun & Hopen1 & Hclk1 & Hsame1 & Hctx1);
      [done|lia|done|].
    rewrite <- (counter_key_same _ _ Hsame1) in Hopen1.
    destruct (IH g1 s1 (u + 1)%Z deadline Hopen1)
      as (g' & s' & Hrun' & Hopen2 & Hclk2 & Hsame2 & Hctx2);
      [lia| |done|done| |].
    { destruct Hsame1 as (_ & _ & -> & _). lia. }
    { rewrite Hclk1. simpl. lra. }
    exists g', s'. simpl requests. rewrite Hrun, Hrun'.
    rewrite (counter_key_same _ _ Hsame1) in Hopen2.
    split; [done|]. split.
    { simpl length. rewrite Nat2Z.inj_succ.
      by replace (u + Z.succ (Z.of_nat (length pauses)))%Z
        with (u + 1 + Z.of_nat (length pauses))%Z by lia. }
    split; [rewrite Hclk2, Hclk1; simpl; lra|].
    split; [by eapply same_settings_trans|done].
Qed.

(** Over quota and not blocking: the entry is refused and only the read
    of the counter has reached the store. *)
Lemma enter_over_quota (fuel : nat) (g : Guard) (s : Store) :
  in_context g = false →
  blocking g = false →
  (max_requests g ≤ usage_of (counter_key g) s)%Z →
  enter (S fuel) g s = (Failed TooManyRequests, g, touch s).
Proof.
  intros Hctx Hblk Hu. unfold enter. rewrite Hctx. simpl.
  unfold get_usage, read.
  rewrite bool_decide_eq_false_2 by lia. by rewrite Hblk.
Qed.

(** C3: starting on a key that reads as absent, [max_requests] scoped
    uses that all fall inside the window they open succeed one after the
    other and leave the usage at exactly [max_requests]; a further entry
    in that window, not blocking, is refused with [TooManyRequests] and
    the usage is still [max_requests]. *)
Theorem C3_quota_exhausted_after_max_requests
    (fuel : nat) (g : Guard) (s : Store)
    (first : Q) (pauses : list Q) (last : Q) :
  in_context g = false →
  blocking g = false →
  max_requests g = Z.of_nat (length (first :: pauses)) →
  live (counter_key g) (elapse first s) = None →
  Forall (λ d, 0 <= d)%Q pauses →
  (0 <= last)%Q →
  (total pauses + last < expire g)%Q →
  ∃ g' s',
    requests (S fuel) (first :: pauses) g s = (Done, g', s')
    ∧ usage_of (counter_key g) s' = max_requests g
    ∧ (get_usage g' s').1 = max_requests g
    ∧ (has_been_reached g' s').1 = true
    ∧ ∃ s'',
        scope (S fuel) pass g' (elapse last s')
        = (Failed TooManyRequests, g', s'')
        ∧ usage_of (counter_key g) s'' = max_requests g.
Proof.
  intros Hctx Hblk Hmax Hfresh Hpos Hlast Htime.
  simpl length in Hmax. rewrite Nat2Z.inj_succ in Hmax.
  assert (0 <= total pauses)%Q as Htot.
  { clear -Hpos. induction Hpos; simpl; [lra|]. unfold total in *. lra. }
  destruct (scope_opens_window fuel g (elapse first s) Hfresh)
    as (g1 & s1 & Hrun1 & Hopen1 & Hclk1 & Hsame1 & Hctx1);
    [lia|lra|done|].
  rewrite <- (counter_key_same _ _ Hsame1) in Hopen1.
  destruct (requests_in_window fuel pauses g1 s1 1
              (clock (elapse first s) + expire g)%Q Hopen1)
    as (g' & s' & Hrun & Hopen & Hclk & Hsame & Hctx');
    [lia| |done|done| |].
  { destruct Hsame1 as (_ & _ & -> & _). lia. }
  { rewrite Hclk1. lra. }
  pose proof (same_settings_trans _ _ _ Hsame1 Hsame) as Hs.
  pose proof (counter_key_same _ _ Hs) as Hkey.
  rewrite (counter_key_same _ _ Hsame1) in Hopen.
  replace (1 + Z.of_nat (length pauses))%Z with (max_requests g) in Hopen
    by lia.
  assert (usage_of (counter_key g) s' = max_requests g) as Hu.
  { by eapply usage_open. }
  exists g', s'. simpl requests. rewrite Hrun1, Hrun.
  split; [done|]. split; [done|].
  split; [unfold get_usage, read; simpl; by rewrite Hkey|].
  split.
  { unfold has_been_reached, get_usage, read. simpl. rewrite Hkey, Hu.
    destruct Hs as (_ & _ & -> & _). by rewrite bool_decide_eq_true_2. }
  assert (open_window (counter_key g) (max_requests g)
            (clock (elapse first s) + expire g) (elapse last s')) as Hopen'.
  { destruct Hopen as [Hc Hlt]. split; [exact Hc|].
    simpl. simpl in Hclk. rewrite Hclk, Hclk1. simpl. lra. }
  exists (touch (elapse last s')). split.
  - unfold scope. rewrite enter_over_quota; [done|done| |].
    + destruct Hs as (_ & _ & _ & _ & ->). done.
    + rewrite Hkey. destruct Hs as (_ & _ & -> & _).
      by rewrite (usage_open _ _ _ _ Hopen').
  - change (usage_of (counter_key g) (touch (elapse last s')))
      with (usage_of (counter_key g) (elapse last s')).
    by eapply usage_open.
Qed.

Lemma check_done_in_context (fuel : nat) :
  ∀ (g g' : Guard) (s s' : Store),
    check fuel g s = (Done, g', s') → in_context g' = true.
Proof.
  induction fuel as [|fuel IH]; intros g g' s s'; simpl; [done|].
  unfold get_usage, read, claim.
  destruct (bool_decide _).
  - destruct (increment _ _) as [n s1]. by intros [= <- <-].
  - destruct (negb (blocking g)); [done|].
    destruct (Qle_bool _ _); [done|]. apply IH.
Qed.

(** C8: entering a guard that is already inside its scope fails at once
    with [GaveUp]; guard and store come back as they were, no command has
    been sent and the usage is what it was.  So a scope nested in the
    scope of the same instance ends in [GaveUp]. *)
Theorem C8_nested_entry_gives_up (fuel : nat) (g : Guard) (s : Store) :
  (in_context g = true →
   enter fuel g s = (Failed GaveUp, g, s)
   ∧ accesses (enter fuel g s).2 = accesses s
   ∧ usage_of (counter_key g) (enter fuel g s).2
     = usage_of (counter_key g) s)
  ∧ ∀ g1 s1,
      enter fuel g s = (Done, g1, s1) →
      scope fuel (scope fuel pass) g s = (Failed GaveUp, leave g1, s1).
Proof.
  split.
  - intros Hctx. unfold enter. by rewrite Hctx.
  - intros g1 s1 He. unfold scope at 1. rewrite He.
    assert (in_context g1 = true) as Hctx.
    { unfold enter in He. destruct (in_context g); [done|].
      by eapply check_done_in_context. }
    unfold scope, enter. by rewrite Hctx.
Qed.

(** X12: a counter whose deadline has passed reads as zero, whatever it
    had reached, and the next scoped use succeeds, counts one and opens
    a new window of [expire] seconds from that moment. *)
Theorem expired_window_starts_afresh
    (fuel : nat) (g : Guard) (s : Store) (u : Z) (deadline : Q) :
  counters s !! counter_key g = Some (u, Some deadline) →
  (deadline <= clock s)%Q →
  in_context g = false →
  (0 < max_requests g)%Z →
  (0 < expire g)%Q →
  usage_of (counter_key g) s = 0%Z
  ∧ ∃ g' s',
      scope (S fuel) pass g s = (Done, g', s')
      ∧ usage_of (counter_key g) s' = 1%Z
      ∧ open_window (counter_key g) 1 (clock s + expire g) s'.
Proof.
  intros Hc Hpast Hctx Hmax Hexp.
  assert (live (counter_key g) s = None) as Hlive.
  { unfold live. rewrite Hc. apply Qltb_ge in Hpast. by rewrite Hpast. }
  split; [unfold usage_of; by rewrite Hlive|].
  destruct (scope_opens_window fuel g s Hlive Hmax Hexp Hctx)
    as (g' & s' & Hrun & Hopen & _).
  exists g', s'. split; [done|]. split; [|done]. by eapply usage_open.
Qed.

End RateLimitProperties.

(** ** Concrete runs *)

Section Runs.

Import RedisLock.

Local Abbreviation idle := Fixture.idle.
Local Abbreviation enc := Fixture.encode.
Local Abbreviation flt := Fixture.float.

Lemma C6_witness :
  ∃ w2,
    attempt idle enc flt (Fixture.lock 10 1) Fixture.free = (Ok true, w2)
    ∧ acquire idle enc flt (Fixture.lock 10 1) 1 Fixture.free = (Ok tt, w2)
    ∧ db (sh w2) !! "lock" = Some "161".
Proof.
  destruct (C6_absent_key_is_acquired idle enc flt (Fixture.lock 10 1)
              Fixture.free (time_time idle Fixture.free).2 100)
    as (w2 & _ & Ha & Hrun & Hdb).
  - reflexivity.
  - by vm_compute.
  - exists w2. split; [exact Ha|]. split; [|exact Hdb].
    apply (Hrun 0%nat 10%Q). by vm_compute.
Defined.

Lemma C2_witness :
  ∃ w5,
    attempt idle enc flt (Fixture.lock 10 1) (Fixture.held_until "50")
    = (Ok true, w5)
    ∧ db (sh w5) !! "lock" = Some "161".
Proof.
  pose (w := Fixture.held_until "50").
  pose (w1 := (time_time idle w).2).
  pose (w2 := (setnx idle "lock" "161" w1).2).
  pose (w3 := (get idle "lock" w2).2).
  pose (w4 := (time_time idle w3).2).
  pose (w5 := (getset idle "lock" "161" w4).2).
  destruct (C2_expired_lock_is_taken_over idle enc flt (Fixture.lock 10 1)
              w w1 w2 w3 w4 w5 100 100 "50" (Fin 50))
    as (Ha & _ & Hdb); try (by vm_compute).
  exists w5. split; [exact Ha|exact Hdb].
Defined.

Lemma C9_witness :
  ∃ w5,
    attempt Fixture.racer enc flt (Fixture.lock 10 1)
      (Fixture.held_until "50")
    = (Ok false, w5)
    ∧ db (sh w5) !! "lock" = Some "161".
Proof.
  pose (w := Fixture.held_until "50").
  pose (w1 := (time_time Fixture.racer w).2).
  pose (w2 := (setnx Fixture.racer "lock" "161" w1).2).
  pose (w3 := (get Fixture.racer "lock" w2).2).
  pose (w4 := (time_time Fixture.racer w3).2).
  pose (w5 := (getset Fixture.racer "lock" "161" w4).2).
  destruct (C9_lost_takeover_overwrites_key Fixture.racer enc flt
              (Fixture.lock 10 1)
              w w1 w2 w3 w4 w5 100 100 "50" (Fin 50) (Some "9000"))
    as (Ha & _ & _ & Hdb); try (by vm_compute).
  exists w5. split; [exact Ha|exact Hdb].
Defined.

Lemma C1_witness :
  ∃ evs,
    log (acquire idle enc flt (Fixture.lock 10 1) 20
           (Fixture.held_until "9999")).2
    = evs ++ []
    ∧ (acquire idle enc flt (Fixture.lock 10 1) 20
         (Fixture.held_until "9999")).1 ≠ Ok tt
    ∧ count is_won_setnx evs = 0%nat
    ∧ count is_getset evs = 0%nat
    ∧ ((0 <= 1)%Q →
       (acquire idle enc flt (Fixture.lock 10 1) 20
          (Fixture.held_until "9999")).1 = Diverge
       ∨ (acquire idle enc flt (Fixture.lock 10 1) 20
            (Fixture.held_until "9999")).1 = Raise LockTimeout).
Proof.
  exact (C1_unexpired_lock_is_never_acquired idle enc flt
           (Fixture.lock 10 1) 20 (Fixture.held_until "9999")
           (fixture_held 10 1 0 [])).
Defined.

Lemma C4_witness :
  ∃ w2,
    acquire idle enc flt (Fixture.lock 0 1) 2 (Fixture.held_until "9999")
    = (Raise LockTimeout, w2)
    ∧ log w2
      = [ESleep 1; ETime 100; EGet "lock" (Some "9999");
         ESetnx "lock" "161" false; ETime 100].
Proof.
  destruct (C4_timeout_zero_sleeps_once idle enc flt (Fixture.lock 0 1) 0
              (Fixture.held_until "9999")
              (attempt idle enc flt (Fixture.lock 0 1)
                 (Fixture.held_until "9999")).2)
    as (w2 & _ & Hlog & Hrun); try (by vm_compute).
  exists w2. split; [exact Hrun|]. rewrite Hlog. by vm_compute.
Defined.

Lemma C5_witness :
  ∃ w' evs,
    acquire idle enc flt (Fixture.lock 10 1) 12 (Fixture.held_until "9999")
    = (Raise LockTimeout, w')
    ∧ log w' = evs ++ []
    ∧ count is_setnx evs = 11%nat.
Proof.
  destruct (C5_attempts_before_timeout idle enc flt (Fixture.lock 10 1)
              10 1 (Fixture.held_until "9999"))
    as [_ Hrun].
  - by split.
  - exact (fixture_held 10 1 0 []).
  - lia.
  - lia.
  - apply (Hrun 12%nat). by vm_compute.
Defined.

(** At a timeout of 10 and an interval of 1 the store is polled 11 times
    before [LockTimeout], which is not the quotient of the two. *)
Lemma C5_counterexample :
  let run := acquire idle enc flt (Fixture.lock 10 1) 20
               (Fixture.held_until "9999") in
  run.1 = Raise LockTimeout
  ∧ count is_setnx (log run.2) = 11%nat
  ∧ ¬ (inject_Z (Z.of_nat (count is_setnx (log run.2)))
       == timeout (Fixture.lock 10 1) / check_interval (Fixture.lock 10 1))%Q.
Proof. by vm_compute. Qed.

Lemma C7_witness :
  ∃ w3,
    with_lock idle enc flt (Fixture.lock 10 1) 1
      (raise (BodyError "boom")) Fixture.free
    = (Raise (BodyError "boom"), w3)
    ∧ log w3
      = [EDelete "lock"; ESetnx "lock" "161" true; ETime 100]
    ∧ db (sh w3) !! "lock" = None.
Proof.
  pose (w1 := (enter idle enc flt (Fixture.lock 10 1) 1 Fixture.free).2).
  destruct (C7_release_on_every_exit idle enc flt (Fixture.lock 10 1) 1
              (raise (BodyError "boom")) Fixture.free w1 w1
              (Raise (BodyError "boom")))
    as (w3 & _ & Hrun & Hlog & Hdb); try (by vm_compute).
  exists w3. split; [exact Hrun|]. split; [|exact Hdb].
  rewrite Hlog. by vm_compute.
Defined.

Lemma C10_witness :
  (∃ w3,
     acquire idle enc flt (Fixture.lock 10 1) 1 (Fixture.held_until "soon")
     = (Raise ValueError, w3)
     ∧ log w3
       = [EGet "lock" (Some "soon"); ESetnx "lock" "161" false; ETime 100])
  ∧ (acquire idle enc flt (Fixture.lock 10 1) 20
       (Fixture.held_until "50")).1 ≠ Raise ValueError.
Proof.
  destruct (C10_value_error_iff_foreign_value idle enc flt
              (Fixture.lock 10 1)) as [Hraise Hnever].
  split.
  - pose (w := Fixture.held_until "soon").
    pose (w1 := (time_time idle w).2).
    pose (w2 := (setnx idle "lock" "161" w1).2).
    pose (w3 := (get idle "lock" w2).2).
    destruct (Hraise w w1 w2 w3 100%Q "soon") as [_ Hrun];
      try (by vm_compute).
    exists w3. split; [|by vm_compute].
    apply (Hrun 0%nat 10%Q). by vm_compute.
  - apply Hnever.
    + exact fixture_float_encode.
    + intros n s Hs. exact Hs.
    + intros v Hv. exists 50%Q. vm_compute in Hv. injection Hv as <-.
      by vm_compute.
Defined.

Lemma failed_acquire_skips_body_and_release_witness :
  with_lock idle enc flt (Fixture.lock 0 1) 2 (raise (BodyError "boom"))
    (Fixture.held_until "9999")
  = (Raise LockTimeout,
     (enter idle enc flt (Fixture.lock 0 1) 2
        (Fixture.held_until "9999")).2).
Proof.
  destruct (failed_acquire_skips_body_and_release idle enc flt
              (Fixture.lock 0 1) 2 (raise (BodyError "boom"))
              (Fixture.held_until "9999")
              (enter idle enc flt (Fixture.lock 0 1) 2
                 (Fixture.held_until "9999")).2 LockTimeout)
    as [Hrun _]; [by vm_compute|exact Hrun].
Defined.

Lemma acquire_returns_holding_witness :
  ∃ w0,
    attempt idle enc flt (Fixture.lock 10 1) w0
    = (Ok true,
       (acquire idle enc flt (Fixture.lock 10 1) 3
          (Fixture.held_until "50")).2)
    ∧ db (sh (acquire idle enc flt (Fixture.lock 10 1) 3
                (Fixture.held_until "50")).2) !! "lock"
      = Some (enc (wall (seen idle w0) + 60 + 1)%Q).
Proof.
  destruct (acquire_returns_holding idle enc flt (Fixture.lock 10 1) 3
              (Fixture.held_until "50")
              (acquire idle enc flt (Fixture.lock 10 1) 3
                 (Fixture.held_until "50")).2)
    as [_ H]; [by vm_compute|exact H].
Defined.

Lemma acquire_terminates_witness :
  ∃ evs,
    log (acquire Fixture.racer enc flt (Fixture.lock 10 1) 12
           (Fixture.held_until "50")).2
    = evs ++ []
    ∧ (acquire Fixture.racer enc flt (Fixture.lock 10 1) 12
         (Fixture.held_until "50")).1 ≠ Diverge
    ∧ (count is_setnx evs ≤ 11)%nat.
Proof.
  destruct (acquire_terminates Fixture.racer enc flt (Fixture.lock 10 1)
              10 1 12 (Fixture.held_until "50"))
    as (evs & Hlog & Hend & Hn & _).
  - by split.
  - lia.
  - lia.
  - by vm_compute.
  - exists evs. split; [exact Hlog|]. split; [exact Hend|exact Hn].
Defined.

Lemma held_lock_sleep_exceeds_timeout_witness :
  ∃ w' evs,
    acquire idle enc flt (Fixture.lock 10 1) 12 (Fixture.held_until "9999")
    = (Raise LockTimeout, w')
    ∧ log w' = evs ++ []
    ∧ count is_sleep evs = 11%nat
    ∧ (10 < slept evs)%Q.
Proof.
  destruct (held_lock_sleep_exceeds_timeout idle enc flt (Fixture.lock 10 1)
              10 1 12 (Fixture.held_until "9999"))
    as (w' & evs & Hrun & Hlog & Hs & _ & Hlong).
  - by split.
  - exact (fixture_held 10 1 0 []).
  - lia.
  - lia.
  - by vm_compute.
  - exists w', evs. split; [exact Hrun|]. split; [exact Hlog|].
    split; [exact Hs|exact Hlong].
Defined.

Lemma zero_interval_never_gives_up_witness :
  ∃ evs,
    (acquire idle enc flt (Fixture.lock 10 0) 25
       (Fixture.held_until "9999")).1 = Diverge
    ∧ log (acquire idle enc flt (Fixture.lock 10 0) 25
             (Fixture.held_until "9999")).2 = evs ++ []
    ∧ count is_setnx evs = 25%nat
    ∧ count is_sleep evs = 25%nat.
Proof.
  exact (zero_interval_never_gives_up idle enc flt (Fixture.lock 10 0) 25
           (Fixture.held_until "9999") (fixture_held 10 0 0 [])
           (Qeq_refl 0) (Qle_bool_imp_le 0 10 eq_refl)).
Defined.

Lemma negative_interval_sleep_raises_witness :
  (acquire idle enc flt (Fixture.lock 10 (-1)) 1
     (Fixture.held_until "9999")).1 = Raise SleepError.
Proof.
  rewrite (negative_interval_sleep_raises idle enc flt
             (Fixture.lock 10 (-1)) 0 (Fixture.held_until "9999")
             (attempt idle enc flt (Fixture.lock 10 (-1))
                (Fixture.held_until "9999")).2);
    by vm_compute.
Defined.

Lemma falsy_value_is_not_taken_over_witness :
  ∃ w3,
    attempt idle enc flt (Fixture.lock 10 1) (Fixture.held_until "")
    = (Ok false, w3)
    ∧ log w3
      = [EGet "lock" (Some ""); ESetnx "lock" "161" false; ETime 100].
Proof.
  pose (w := Fixture.held_until "").
  pose (w1 := (time_time idle w).2).
  pose (w2 := (setnx idle "lock" "161" w1).2).
  pose (w3 := (get idle "lock" w2).2).
  destruct (falsy_value_is_not_taken_over idle enc flt (Fixture.lock 10 1)
              w w1 w2 w3 100 (Some EmptyString)) as [Ha _];
    try (by vm_compute); [by right|].
  exists w3. split; [exact Ha|by vm_compute].
Defined.

Lemma never_expiring_value_is_not_taken_over_witness :
  ∃ w4,
    attempt idle enc Fixture.float_py (Fixture.lock 10 1)
      (Fixture.held_until "nan")
    = (Ok false, w4)
    ∧ count is_getset (log w4) = 0%nat.
Proof.
  pose (w := Fixture.held_until "nan").
  pose (w1 := (time_time idle w).2).
  pose (w2 := (setnx idle "lock" "161" w1).2).
  pose (w3 := (get idle "lock" w2).2).
  pose (w4 := (time_time idle w3).2).
  exists w4. split; [|by vm_compute].
  apply (never_expiring_value_is_not_taken_over idle enc Fixture.float_py
           (Fixture.lock 10 1) w w1 w2 w3 w4 100 100 "nan" NaN);
    try (by vm_compute). by right.
Defined.

Lemma release_then_acquire_witness :
  ∃ w3,
    (release idle (Fixture.lock 10 1) ;;
     acquire idle enc flt (Fixture.lock 10 1) 1)
      (Fixture.held_until "9999")
    = (Ok tt, w3)
    ∧ log w3 = [ESetnx "lock" "161" true; ETime 100; EDelete "lock"]
    ∧ db (sh w3) !! "lock" = Some "161".
Proof.
  pose (w := Fixture.held_until "9999").
  pose (w1 := (release idle (Fixture.lock 10 1) w).2).
  pose (w2 := (time_time idle w1).2).
  destruct (release_then_acquire idle enc flt (Fixture.lock 10 1) 0
              w w1 w2 100) as (_ & w3 & Hrun & Hlog & Hdb);
    try (by vm_compute).
  exists w3. split; [exact Hrun|]. split; [exact Hlog|exact Hdb].
Defined.

Lemma held_lock_excludes_second_acquire_witness :
  (∃ evs,
     log (acquire Fixture.frozen enc flt (Fixture.lock 10 1) 5
            (acquire Fixture.frozen enc flt (Fixture.lock 10 1) 1
               Fixture.free).2).2
     = evs
       ++ log (acquire Fixture.frozen enc flt (Fixture.lock 10 1) 1
                 Fixture.free).2
     ∧ (acquire Fixture.frozen enc flt (Fixture.lock 10 1) 5
          (acquire Fixture.frozen enc flt (Fixture.lock 10 1) 1
             Fixture.free).2).1 ≠ Ok tt
     ∧ count is_won_setnx evs = 0%nat
     ∧ count is_getset evs = 0%nat)
  ∧ ∃ w',
      acquire Fixture.frozen enc flt (Fixture.lock 10 1) 12
        (acquire Fixture.frozen enc flt (Fixture.lock 10 1) 1
           Fixture.free).2
      = (Raise LockTimeout, w').
Proof.
  destruct (held_lock_excludes_second_acquire Fixture.frozen enc flt
              (Fixture.lock 10 1) 100 1 Fixture.free
              (acquire Fixture.frozen enc flt (Fixture.lock 10 1) 1
                 Fixture.free).2)
    as [Hnever Hends].
  - exact fixture_encode_truthy.
  - exact fixture_codec_close.
  - reflexivity.
  - intros n s. by vm_compute.
  - by vm_compute.
  - split; [exact (Hnever 5%nat)|].
    apply (Hends 10%Z 1%Z 12%nat); [by split|lia|lia|by vm_compute].
Defined.

End Runs.

Section GuardRuns.

Import RateLimit.

(** The guard of the test suite, with a window of two seconds, on an
    empty store. *)
Local Abbreviation guard := (new "test" "localhost" 10 2 false 5 1).
Local Abbreviation store := (empty_store 0).

Lemma C3_witness :
  ∃ g' s',
    requests 1 (0%Q :: replicate 9 0%Q) guard store = (Done, g', s')
    ∧ usage_of ("test", "localhost") s' = 10%Z
    ∧ ∃ s'',
        scope 1 pass g' (elapse 1 s') = (Failed TooManyRequests, g', s'')
        ∧ usage_of ("test", "localhost") s'' = 10%Z.
Proof.
  destruct (C3_quota_exhausted_after_max_requests 0 guard store
              0%Q (replicate 9 0%Q) 1%Q)
    as (g' & s' & Hrun & Hu & _ & _ & s'' & Hlast & Hu'').
  - reflexivity.
  - reflexivity.
  - reflexivity.
  - by vm_compute.
  - repeat constructor; by vm_compute.
  - by vm_compute.
  - by vm_compute.
  - exists g', s'. split; [exact Hrun|]. split; [exact Hu|].
    exists s''. split; [exact Hlast|exact Hu''].
Defined.

Lemma C8_witness :
  enter 1 (set_in_context true guard) store
  = (Failed GaveUp, set_in_context true guard, store)
  ∧ (scope 1 (scope 1 pass) guard store).1.1 = Failed GaveUp.
Proof.
  split.
  - destruct (C8_nested_entry_gives_up 1 (set_in_context true guard) store)
      as [Hin _].
    destruct Hin as (He & _); [reflexivity|exact He].
  - destruct (C8_nested_entry_gives_up 1 guard store) as [_ Hnested].
    erewrite Hnested; [reflexivity|by vm_compute].
Defined.

Lemma expired_window_starts_afresh_witness :
  ∃ g' s',
    scope 1 pass guard
      {| counters := {[("test", "localhost") := (10%Z, Some 2%Q)]};
         clock := 3; accesses := 0 |}
    = (Done, g', s')
    ∧ usage_of ("test", "localhost") s' = 1%Z.
Proof.
  destruct (expired_window_starts_afresh 0 guard
              {| counters := {[("test", "localhost") := (10%Z, Some 2%Q)]};
                 clock := 3; accesses := 0 |} 10 2)
    as (_ & g' & s' & Hrun & Hu & _).
  - by vm_compute.
  - by vm_compute.
  - reflexivity.
  - by vm_compute.
  - by vm_compute.
  - exists g', s'. split; [exact Hrun|exact Hu].
Defined.

End GuardRuns.
